(** * TravelAI: the conversation store and the streaming chat handler

    A shallow embedding of [src/main.py]: the module-level dictionary
    [conversations], the handlers [chat], [get_conversation] and
    [clear_conversation], and the asynchronous generator [generate] that
    streams the model's reply and commits the exchange to the history.

    Python lists are objects with identity: [chat] binds [history] to the
    very list held by [conversations], and the generator appends to that
    object later on.  The embedding therefore keeps a heap of list objects
    and lets the dictionary map conversation ids to heap locations. *)

From stdpp Require Import gmap strings list fin_maps.
From Stdlib Require Import ZArith Ascii String.

Local Open Scope string_scope.
Local Open Scope list_scope.
Local Open Scope nat_scope.

(** ** Python [str] *)

(** A [str] is modelled as a sequence of characters with code points below
    256.  [str.isspace] on such a character. *)
Definition isspace (c : ascii) : bool :=
  let n := N_of_ascii c in
  ((9 <=? n) && (n <=? 13) || (28 <=? n) && (n <=? 32) || (n =? 133) || (n =? 160))%N.

Fixpoint lstrip (s : string) : string :=
  match s with
  | EmptyString => EmptyString
  | String c s' => if isspace c then lstrip s' else s
  end.

Fixpoint rstrip (s : string) : string :=
  match s with
  | EmptyString => EmptyString
  | String c s' =>
      match rstrip s' with
      | EmptyString => if isspace c then EmptyString else String c EmptyString
      | r => String c r
      end
  end.

(** [s.strip()] *)
Definition strip (s : string) : string := rstrip (lstrip s).

(** Truth value of a [str]: only the empty string is falsy. *)
Definition truthy (s : string) : bool :=
  match s with
  | EmptyString => false
  | String _ _ => true
  end.

(** [a or b] on strings. *)
Definition str_or (a b : string) : string := if truthy a then a else b.

(** The text of a whole list of fragments, in order. *)
Definition join (l : list string) : string := foldr String.append "" l.

(** "Empty or whitespace-only", as the interface describes a rejected
    message. *)
Fixpoint whitespace_only (s : string) : bool :=
  match s with
  | EmptyString => true
  | String c s' => isspace c && whitespace_only s'
  end.

(** ** Requests, history entries and the store *)

(** The pydantic model [Message]. *)
Module Message.
Record t := { content : string; conversation_id : string }.
End Message.

(** A history entry, the dict [{"role": ..., "content": ...}]. *)
Record Msg := { role : string; content : string }.

Definition user_msg (text : string) : Msg := {| role := "user"; content := text |}.
Definition assistant_msg (text : string) : Msg := {| role := "assistant"; content := text |}.

(** Calls into the provider library, in the order they are made. *)
Inductive ProviderCall :=
| CallGenerativeModel (model_name : string)
| CallStartChat (chat_history : list (string * string))
| CallSendMessage (text : string).

(** The process state: list objects by identity, the dictionary
    [conversations], and the log of provider calls. *)
Record State := {
  heap : gmap positive (list Msg);
  conversations : gmap string positive;
  provider_calls : list ProviderCall
}.

Definition initial : State :=
  {| heap := ∅; conversations := ∅; provider_calls := [] |}.

(** The contents of the list object at [l]. *)
Definition list_at (st : State) (l : positive) : list Msg :=
  default [] (heap st !! l).

(** [lst.append(m)] on the list object at [l]. *)
Definition list_append (l : positive) (m : Msg) (st : State) : State :=
  {| heap := <[l := list_at st l ++ [m]]> (heap st);
     conversations := conversations st;
     provider_calls := provider_calls st |}.

Definition log_call (c : ProviderCall) (st : State) : State :=
  {| heap := heap st;
     conversations := conversations st;
     provider_calls := provider_calls st ++ [c] |}.

Definition get_or_create_conversation (conversation_id : string) (st : State)
  : positive * State :=
  match conversations st !! conversation_id with
  | Some l => (l, st)
  | None =>
      let l := fresh (dom (heap st)) in
      (l, {| heap := <[l := []]> (heap st);
             conversations := <[conversation_id := l]> (conversations st);
             provider_calls := provider_calls st |})
  end.

(** The JSON bodies of the two conversation endpoints. *)
Record ConversationView := { view_conversation_id : string; messages : list Msg }.
Record ClearResult := { status : string; cleared_conversation_id : string }.

Definition get_conversation (conversation_id : string) (st : State) : ConversationView :=
  let history :=
    match conversations st !! conversation_id with
    | Some l => list_at st l
    | None => []
    end in
  {| view_conversation_id := conversation_id; messages := history |}.

Definition clear_conversation (conversation_id : string) (st : State)
  : ClearResult * State :=
  let st' :=
    match conversations st !! conversation_id with
    | Some _ =>
        {| heap := heap st;
           conversations := delete conversation_id (conversations st);
           provider_calls := provider_calls st |}
    | None => st
    end in
  ({| status := "cleared"; cleared_conversation_id := conversation_id |}, st').

(** ** The upstream model *)

(** How the iteration over the streamed response ends: the iterator is
    exhausted, or an exception [e] is raised ([Raised (str e)]), by the
    iterator or by reading [chunk.text]. *)
Inductive StreamEnd :=
| Exhausted
| Raised (e : string).

(** What the provider hands to the generator for one request: [start_chat]
    raises, the awaited [send_message] raises, or a response is returned
    whose chunks carry the given texts (an empty text stands for a falsy
    [chunk.text]). *)
Inductive Upstream :=
| StartChatRaises (e : string)
| SendMessageRaises (e : string)
| Streams (chunks : list string) (fin : StreamEnd).

(** What the provider does for one request.  [send_message] runs in a
    worker thread, behind [await asyncio.to_thread(...)].  An outcome of the
    provider is delivered to the generator, with one exception: a
    [StopIteration] raised by [send_message] in the worker cannot be set on
    the awaited future, which is then never resolved, so the [await] never
    completes.  An [Upstream] read as a [Provider] is a delivered one. *)
Inductive Provider :=
| Delivers (up : Upstream)
| SendMessageStopIteration.

Coercion Delivers : Upstream >-> Provider.

(** ** The generator [generate] *)

(** Where a generator object is suspended: not started yet, at the
    [await asyncio.to_thread(...)], at the [yield] of the loop, at the
    [yield] of the [except] block, or finished. *)
Inductive GenPc :=
| PcStart
| PcAwaitSend
| PcInLoop (full_response : string) (rest : list string) (fin : StreamEnd)
| PcAfterErrorYield (full_response error_msg : string)
| PcFinished.

(** The generator object: the closure variables [history] (a reference to
    the list object) and [user_message], the behaviour of the provider for
    this request, and the suspension point. *)
Record Generator := {
  history : positive;
  user_message : string;
  upstream : Provider;
  pc : GenPc
}.

Definition set_pc (p : GenPc) (g : Generator) : Generator :=
  {| history := history g; user_message := user_message g;
     upstream := upstream g; pc := p |}.

Definition FALLBACK : string :=
  "I encountered an issue generating a response. Please try again.".

(** The history in the provider's format: role ["user"] or ["model"], and
    the text. *)
Definition to_chat_history (h : list Msg) : list (string * string) :=
  map (fun msg => (if String.eqb (role msg) "user" then role msg else "model", content msg)) h.

(** What a resumed generator hands back to the event loop: it awaits, it
    yields a fragment to the response, or it has come to its end. *)
Inductive Signal :=
| Await
| Yield (fragment : string)
| Stop.

(** The two appends that record the exchange. *)
Definition append_exchange (g : Generator) (assistant_text : string) (st : State) : State :=
  list_append (history g) (assistant_msg assistant_text)
    (list_append (history g) (user_msg (user_message g)) st).

(** The [except] block from the second append on, reached directly or on
    resumption after [yield error_msg]. *)
Definition except_commit (g : Generator) (full_response error_msg : string) (st : State)
  : Signal * Generator * State :=
  (Stop, set_pc PcFinished g, append_exchange g (str_or full_response error_msg) st).

(** The [except Exception as e] block. *)
Definition except_block (g : Generator) (full_response e : string) (st : State)
  : Signal * Generator * State :=
  let error_msg := "Error: " +:+ e in
  if negb (truthy full_response)
  then (Yield error_msg, set_pc (PcAfterErrorYield full_response error_msg) g, st)
  else except_commit g full_response error_msg st.

(** The [for chunk in response] loop and what follows it, run up to the
    next [yield] or to the end of the generator. *)
Fixpoint stream_loop (g : Generator) (full_response : string)
    (chunks : list string) (fin : StreamEnd) (st : State)
  : Signal * Generator * State :=
  match chunks with
  | chunk_text :: rest =>
      if truthy chunk_text
      then (Yield chunk_text,
            set_pc (PcInLoop (full_response +:+ chunk_text) rest fin) g, st)
      else stream_loop g full_response rest fin st
  | [] =>
      match fin with
      | Exhausted =>
          let full_response :=
            if negb (truthy full_response) then FALLBACK else full_response in
          (Stop, set_pc PcFinished g, append_exchange g full_response st)
      | Raised e => except_block g full_response e st
      end
  end.

(** One resumption of the generator by the event loop: it runs to its next
    suspension point or to its end.  At [PcAwaitSend] the generator goes on
    with what the worker thread delivers; when [send_message] raised
    [StopIteration] there, nothing is delivered and the generator stays
    where it is, for good.  [start_chat] cannot have raised at
    [PcAwaitSend], and that case is given the [except] block like every
    other exception. *)
Definition resume (g : Generator) (st : State) : Signal * Generator * State :=
  match pc g with
  | PcStart =>
      let full_response := "" in
      let chat_history := to_chat_history (list_at st (history g)) in
      let st := log_call (CallStartChat chat_history) st in
      match upstream g with
      | Delivers (StartChatRaises e) => except_block g full_response e st
      | _ => (Await, set_pc PcAwaitSend g,
              log_call (CallSendMessage (user_message g)) st)
      end
  | PcAwaitSend =>
      let full_response := "" in
      match upstream g with
      | Delivers (StartChatRaises e) => except_block g full_response e st
      | Delivers (SendMessageRaises e) => except_block g full_response e st
      | Delivers (Streams chunks fin) => stream_loop g full_response chunks fin st
      | SendMessageStopIteration => (Await, g, st)
      end
  | PcInLoop full_response rest fin => stream_loop g full_response rest fin st
  | PcAfterErrorYield full_response error_msg => except_commit g full_response error_msg st
  | PcFinished => (Stop, g, st)
  end.

(** ** The handler [chat] *)

Inductive Response :=
| HTTPException (status_code : Z) (detail : string)
| StreamingResponse (body : Generator) (media_type : string).

(** [model_init] is [Some (str e)] when constructing the model object raises
    [e], and [None] when it succeeds. *)
Definition chat (message : Message.t) (model_init : option string)
    (up : Provider) (st : State) : Response * State :=
  let conversation_id := Message.conversation_id message in
  let user_message := Message.content message in
  if negb (truthy user_message) || negb (truthy (strip user_message))
  then (HTTPException 400 "Message cannot be empty", st)
  else
    let '(history, st) := get_or_create_conversation conversation_id st in
    let st := log_call (CallGenerativeModel "gemini-2.5-flash") st in
    match model_init with
    | Some e => (HTTPException 500 e, st)
    | None =>
        (StreamingResponse
           {| history := history; user_message := user_message;
              upstream := up; pc := PcStart |}
           "text/plain; charset=utf-8", st)
    end.

(** ** Consuming the streamed body *)

(** [n] resumptions in a row, with the fragments yielded. *)
Fixpoint resumes (n : nat) (g : Generator) (st : State) : list string * Generator * State :=
  match n with
  | O => ([], g, st)
  | S n' =>
      let '(sig, g', st') := resume g st in
      let '(frags, g'', st'') := resumes n' g' st' in
      (match sig with Yield frag => frag :: frags | _ => frags end, g'', st'')
  end.

(** What [resumes] does after the first of [S n] resumptions. *)
Definition continue (n : nat) (r : Signal * Generator * State)
  : list string * Generator * State :=
  let '(sig, g', st') := r in
  let '(frags, g'', st'') := resumes n g' st' in
  (match sig with Yield frag => frag :: frags | _ => frags end, g'', st'').

(** A bound on the resumptions a generator needs to come to its end, when
    the provider's outcome is delivered. *)
Definition remaining (g : Generator) : nat :=
  match pc g with
  | PcStart =>
      match upstream g with
      | Delivers (Streams chunks _) => List.length chunks + 3
      | _ => 3
      end
  | PcAwaitSend =>
      match upstream g with
      | Delivers (Streams chunks _) => List.length chunks + 2
      | _ => 2
      end
  | PcInLoop _ rest _ => List.length rest + 2
  | PcAfterErrorYield _ _ => 1
  | PcFinished => 0
  end.

(** The response body iterated to its end, with nothing else running in
    between. *)
Definition consume (g : Generator) (st : State) : list string * Generator * State :=
  resumes (remaining g) g st.

(** ** The server as a whole *)

(** The event loop interleaves whole handler calls and generator
    resumptions.  [bodies] are the response bodies in flight. *)
Record System := { sys_state : State; bodies : list Generator }.

Inductive Op :=
| OpChat (message : Message.t) (model_init : option string) (up : Provider)
| OpResume (i : nat)
| OpGet (conversation_id : string)
| OpClear (conversation_id : string).

Definition apply_op (op : Op) (s : System) : System :=
  match op with
  | OpChat message model_init up =>
      let '(r, st) := chat message model_init up (sys_state s) in
      {| sys_state := st;
         bodies := match r with
                   | StreamingResponse g _ => bodies s ++ [g]
                   | HTTPException _ _ => bodies s
                   end |}
  | OpResume i =>
      match bodies s !! i with
      | Some g =>
          let '(_, g', st) := resume g (sys_state s) in
          {| sys_state := st; bodies := <[i := g']> (bodies s) |}
      | None => s
      end
  | OpGet _ => s
  | OpClear conversation_id =>
      {| sys_state := (clear_conversation conversation_id (sys_state s)).2;
         bodies := bodies s |}
  end.

Definition run (ops : list Op) (s : System) : System :=
  foldl (fun s op => apply_op op s) s ops.

(** ** What the interface says of one exchange *)

(** The non-empty chunk texts of the upstream response, in arrival order. *)
Definition upstream_fragments (up : Upstream) : list string :=
  match up with
  | Streams chunks _ => List.filter truthy chunks
  | _ => []
  end.

(** The text accumulated from the upstream response. *)
Definition upstream_text (up : Upstream) : string :=
  match up with
  | Streams chunks _ => join chunks
  | _ => ""
  end.

(** The exception that ends the upstream call, if any. *)
Definition upstream_error (up : Upstream) : option string :=
  match up with
  | StartChatRaises e | SendMessageRaises e | Streams _ (Raised e) => Some e
  | Streams _ Exhausted => None
  end.

Definition error_indicator (e : string) : string := "Error: " +:+ e.

(** The fragments one exchange writes to the response body. *)
Definition emitted (up : Upstream) : list string :=
  upstream_fragments up ++
  match upstream_error up with
  | Some e => if truthy (upstream_text up) then [] else [error_indicator e]
  | None => []
  end.

(** The assistant text one exchange stores. *)
Definition final_text (up : Upstream) : string :=
  match upstream_error up with
  | Some e => str_or (upstream_text up) (error_indicator e)
  | None => str_or (upstream_text up) FALLBACK
  end.

(** The fragments and the stored text of a loop entered with
    [full_response] and the chunks [rest] still to come. *)
Definition loop_fragments (full_response : string) (rest : list string) (fin : StreamEnd)
  : list string :=
  List.filter truthy rest ++
  match fin with
  | Raised e => if truthy (full_response +:+ join rest) then [] else [error_indicator e]
  | Exhausted => []
  end.

Definition loop_text (full_response : string) (rest : list string) (fin : StreamEnd) : string :=
  match fin with
  | Raised e => str_or (full_response +:+ join rest) (error_indicator e)
  | Exhausted => str_or (full_response +:+ join rest) FALLBACK
  end.

(** The provider calls one exchange makes from the generator. *)
Definition logged (g : Generator) (st : State) : State :=
  let st := log_call (CallStartChat (to_chat_history (list_at st (history g)))) st in
  match upstream g with
  | Delivers (StartChatRaises _) => st
  | _ => log_call (CallSendMessage (user_message g)) st
  end.

(** One complete [POST /api/chat] whose provider outcome is delivered: the
    handler, then the body iterated to its end.  [None] when the handler
    answers with an error instead. *)
Definition post_chat (message : Message.t) (up : Upstream) (st : State)
  : option (list string * State) :=
  match chat message None up st with
  | (StreamingResponse g _, st1) =>
      let '(frags, _, st2) := consume g st1 in Some (frags, st2)
  | (HTTPException _ _, _) => None
  end.

(** Empty or whitespace-only content. *)
Definition blank (s : string) : Prop := s = "" ∨ whitespace_only s = true.

(** Every conversation in the store holds an even number of messages. *)
Definition store_even (st : State) : Prop :=
  ∀ conversation_id, Nat.Even (List.length (messages (get_conversation conversation_id st))).

(** A request used in the examples. *)
Definition tokyo : Message.t :=
  {| Message.content := "Plan a 3-day Tokyo trip"; Message.conversation_id := "trip1" |}.

(** ** [format_conversation_history] *)

Definition newline : string := String (ascii_of_nat 10) "".

(** One formatted entry, [f"{role}: {msg['content']}"]. *)
Definition format_line (msg : Msg) : string :=
  (if String.eqb (role msg) "user" then "User" else "Assistant")
  +:+ ": " +:+ content msg.

Definition format_conversation_history (history : list Msg) : string :=
  String.concat newline (map format_line history).

(** ** Well-formed histories *)

(** A history made of whole exchanges: a user message with non-blank
    content, then an assistant message with non-empty content, and so on. *)
Fixpoint dialogue (h : list Msg) : Prop :=
  match h with
  | [] => True
  | u :: a :: rest =>
      role u = "user" ∧ ¬ blank (content u)
      ∧ role a = "assistant" ∧ content a ≠ ""
      ∧ dialogue rest
  | _ => False
  end.

(** The same shape in the provider's format: a ["user"] turn, then a
    ["model"] turn with non-empty text, and so on. *)
Fixpoint turns (h : list (string * string)) : Prop :=
  match h with
  | [] => True
  | (r1, t1) :: (r2, t2) :: rest =>
      r1 = "user" ∧ ¬ blank t1 ∧ r2 = "model" ∧ t2 ≠ "" ∧ turns rest
  | _ => False
  end.

(** A generator as [chat] and [resume] make them: the user message passed
    the test of [chat], and an error message that was yielded is not
    empty. *)
Definition body_ok (g : Generator) : Prop :=
  ¬ blank (user_message g)
  ∧ match pc g with
    | PcAfterErrorYield _ error_msg => error_msg ≠ ""
    | _ => True
    end.

(** Every conversation id has a list object of its own. *)
Definition store_wf (st : State) : Prop :=
  (∀ cid l, conversations st !! cid = Some l → l ∈ dom (heap st))
  ∧ (∀ cid1 cid2 l,
       conversations st !! cid1 = Some l → conversations st !! cid2 = Some l →
       cid1 = cid2).

(** A provider call that carries a history carries whole turns. *)
Definition call_ok (c : ProviderCall) : Prop :=
  match c with
  | CallStartChat chat_history => turns chat_history
  | _ => True
  end.

(** What holds of the server at every moment: every list object is a
    sequence of whole exchanges, every body in flight is as [chat] made it,
    and every history handed to the provider was made of whole turns. *)
Definition sys_inv (s : System) : Prop :=
  (∀ l, dialogue (list_at (sys_state s) l))
  ∧ Forall body_ok (bodies s)
  ∧ Forall call_ok (provider_calls (sys_state s)).

(** The assistant text a generator will store when it comes to its end,
    read off its suspension point. *)
Definition pending_text (g : Generator) : string :=
  match pc g with
  | PcStart | PcAwaitSend =>
      match upstream g with
      | Delivers up => final_text up
      | SendMessageStopIteration => ""
      end
  | PcInLoop full_response rest fin => loop_text full_response rest fin
  | PcAfterErrorYield full_response error_msg => str_or full_response error_msg
  | PcFinished => ""
  end.

(** The history [h] holds the exchange of [u] and [text], as neighbours. *)
Definition recorded (u text : string) (h : list Msg) : Prop :=
  ∃ before after, h = before ++ [user_msg u; assistant_msg text] ++ after.

(** The state of one exchange in the running server: its conversation is
    still bound to the list the generator holds, and the generator either
    still has [text] to store or has finished and the list holds the
    exchange. *)
Definition tracked (conversation_id : string) (i : nat) (l : positive)
    (u text : string) (s : System) : Prop :=
  conversations (sys_state s) !! conversation_id = Some l
  ∧ ∃ g, bodies s !! i = Some g ∧ history g = l ∧ user_message g = u
         ∧ ((pc g ≠ PcFinished ∧ pending_text g = text)
            ∨ (pc g = PcFinished ∧ recorded u text (list_at (sys_state s) l))).

(** The body at place [i] waits for a [send_message] whose [StopIteration]
    is never delivered. *)
Definition stuck (i : nat) (s : System) : Prop :=
  ∃ g, bodies s !! i = Some g
       ∧ upstream g = SendMessageStopIteration
       ∧ (pc g = PcStart ∨ pc g = PcAwaitSend).

(** The server at start-up: nothing stored, nothing in flight. *)
Definition start : System := {| sys_state := initial; bodies := [] |}.

Definition is_clear (op : Op) : bool :=
  match op with
  | OpClear _ => true
  | _ => false
  end.

(** Several exchanges on one conversation, one after the other; each
    request is a content and what the provider does for it. *)
Fixpoint post_chats (conversation_id : string) (requests : list (string * Upstream))
    (st : State) : option (list (list string) * State) :=
  match requests with
  | [] => Some ([], st)
  | (text, up) :: rest =>
      match post_chat {| Message.content := text;
                         Message.conversation_id := conversation_id |} up st with
      | Some (frags, st') =>
          match post_chats conversation_id rest st' with
          | Some (more, st'') => Some (frags :: more, st'')
          | None => None
          end
      | None => None
      end
  end.

(** * Properties *)

(** ** Strings *)

Lemma truthy_false s : truthy s = false → s = "".
Proof. by destruct s. Qed.

Lemma truthy_true s : truthy s = true ↔ s ≠ "".
Proof. destruct s; simpl; split; intros; congruence. Qed.

Lemma str_app_empty_r s : s +:+ "" = s.
Proof. induction s as [|c s IH]; [done|]. change (String c (s +:+ "") = String c s). by rewrite IH. Qed.

Lemma str_app_assoc a b c : (a +:+ b) +:+ c = a +:+ (b +:+ c).
Proof.
  induction a as [|x a IH]; [done|].
  change (String x ((a +:+ b) +:+ c) = String x (a +:+ (b +:+ c))). by rewrite IH.
Qed.

Lemma str_or_fallback s d : (if negb (truthy s) then d else s) = str_or s d.
Proof. unfold str_or. by destruct (truthy s). Qed.

Lemma join_cons c l : join (c :: l) = c +:+ join l.
Proof. done. Qed.

Lemma join_filter_truthy l : join (List.filter truthy l) = join l.
Proof.
  induction l as [|c l IH]; [done|]. simpl List.filter.
  destruct (truthy c) eqn:Hc.
  - by rewrite !join_cons, IH.
  - apply truthy_false in Hc as ->. by rewrite join_cons.
Qed.

Lemma error_indicator_truthy e : truthy (error_indicator e) = true.
Proof. done. Qed.

Lemma lstrip_whitespace_only s : whitespace_only s = true → lstrip s = "".
Proof.
  induction s as [|c s IH]; [done|]. simpl.
  intros [Hc Hs]%andb_prop. rewrite Hc. auto.
Qed.

Lemma lstrip_head s :
  whitespace_only s = false → ∃ c s', lstrip s = String c s' ∧ isspace c = false.
Proof.
  induction s as [|c s IH]; [done|]. simpl.
  destruct (isspace c) eqn:Hc; simpl; [auto | eauto].
Qed.

Lemma rstrip_head c s : isspace c = false → truthy (rstrip (String c s)) = true.
Proof. intros Hc. simpl. destruct (rstrip s); by rewrite ?Hc. Qed.

Lemma strip_truthy s : truthy (strip s) = negb (whitespace_only s).
Proof.
  unfold strip. destruct (whitespace_only s) eqn:Hs.
  - by rewrite lstrip_whitespace_only.
  - destruct (lstrip_head s Hs) as (c & s' & -> & Hc). by rewrite rstrip_head.
Qed.

(** The test of [chat] rejects exactly the blank contents. *)
Lemma chat_guard s :
  negb (truthy s) || negb (truthy (strip s)) = whitespace_only s.
Proof. rewrite strip_truthy, negb_involutive. by destruct s. Qed.

Lemma blank_whitespace_only s : blank s ↔ whitespace_only s = true.
Proof. unfold blank. split; [intros [->|]|]; auto. Qed.

Lemma not_blank s : ¬ blank s → whitespace_only s = false.
Proof. rewrite blank_whitespace_only. by destruct (whitespace_only s). Qed.

(** ** The heap of list objects *)

Lemma list_at_append_eq l m st : list_at (list_append l m st) l = list_at st l ++ [m].
Proof. unfold list_at, list_append. simpl. by rewrite lookup_insert_eq. Qed.

Lemma list_at_append_ne l l' m st : l ≠ l' → list_at (list_append l m st) l' = list_at st l'.
Proof. intros. unfold list_at, list_append. simpl. by rewrite lookup_insert_ne. Qed.

Lemma list_at_log_call c st l : list_at (log_call c st) l = list_at st l.
Proof. done. Qed.

Lemma list_at_exchange_eq g text st :
  list_at (append_exchange g text st) (history g)
  = list_at st (history g) ++ [user_msg (user_message g); assistant_msg text].
Proof. unfold append_exchange. by rewrite !list_at_append_eq, <-app_assoc. Qed.

Lemma list_at_exchange_ne g text st l :
  history g ≠ l → list_at (append_exchange g text st) l = list_at st l.
Proof. intros. unfold append_exchange. by rewrite !list_at_append_ne. Qed.

Lemma conversations_exchange g text st :
  conversations (append_exchange g text st) = conversations st.
Proof. done. Qed.

Lemma provider_calls_exchange g text st :
  provider_calls (append_exchange g text st) = provider_calls st.
Proof. done. Qed.

(** ** The generator, one resumption at a time *)

Lemma resumes_S n g st : resumes (S n) g st = continue n (resume g st).
Proof. done. Qed.


(** A finished generator stays finished and touches nothing. *)
Lemma resumes_finished n g st : pc g = PcFinished → resumes n g st = ([], g, st).
Proof.
  intros Hpc. induction n as [|n IH]; [done|].
  rewrite resumes_S. unfold resume. rewrite Hpc. unfold continue. by rewrite IH.
Qed.

Lemma continue_stop n g st : continue n (Stop, set_pc PcFinished g, st) = ([], set_pc PcFinished g, st).
Proof. unfold continue. by rewrite resumes_finished. Qed.

Lemma continue_except_commit n g full_response error_msg st :
  continue n (except_commit g full_response error_msg st)
  = ([], set_pc PcFinished g, append_exchange g (str_or full_response error_msg) st).
Proof. apply continue_stop. Qed.

(** The [except] block, run to the end of the generator. *)
Lemma continue_except_block (n : nat) g full_response e st :
  1 ≤ n →
  continue n (except_block g full_response e st)
  = (if truthy full_response then [] else [error_indicator e],
     set_pc PcFinished g,
     append_exchange g (str_or full_response (error_indicator e)) st).
Proof.
  intros Hn. unfold except_block. destruct (truthy full_response) eqn:Hf; simpl negb; cbv iota.
  - apply continue_except_commit.
  - destruct n as [|n]; [lia|].
    unfold continue at 1. rewrite resumes_S.
    change (resume (set_pc _ g) st) with
      (except_commit (set_pc (PcAfterErrorYield full_response ("Error: " +:+ e)) g)
         full_response ("Error: " +:+ e) st).
    by rewrite continue_except_commit.
Qed.

(** The loop, run to the end of the generator. *)
Lemma continue_stream_loop fin rest :
  ∀ full_response (n : nat) g st,
    List.length rest + 1 ≤ n →
    continue n (stream_loop g full_response rest fin st)
    = (loop_fragments full_response rest fin,
       set_pc PcFinished g,
       append_exchange g (loop_text full_response rest fin) st).
Proof.
  induction rest as [|chunk_text rest IH]; intros full_response n g st Hn.
  - unfold loop_fragments, loop_text. simpl join. rewrite str_app_empty_r.
    destruct fin as [|e]; simpl stream_loop.
    + rewrite str_or_fallback. apply continue_stop.
    + rewrite continue_except_block by (simpl in Hn; lia). done.
  - simpl stream_loop. destruct (truthy chunk_text) eqn:Hc.
    + destruct n as [|n]; [simpl in Hn; lia|].
      unfold continue at 1. rewrite resumes_S.
      change (resume (set_pc _ g) st) with
        (stream_loop (set_pc (PcInLoop (full_response +:+ chunk_text) rest fin) g)
           (full_response +:+ chunk_text) rest fin st).
      rewrite IH by (simpl in Hn; lia).
      unfold loop_fragments, loop_text. simpl List.filter. rewrite Hc.
      rewrite join_cons, str_app_assoc. done.
    + rewrite IH by (simpl in Hn; lia).
      apply truthy_false in Hc as ->.
      unfold loop_fragments, loop_text. simpl List.filter. by rewrite join_cons.
Qed.

Lemma loop_fragments_start chunks fin :
  loop_fragments "" chunks fin = emitted (Streams chunks fin).
Proof. by destruct fin. Qed.

Lemma loop_text_start chunks fin :
  loop_text "" chunks fin = final_text (Streams chunks fin).
Proof. by destruct fin. Qed.

(** A fresh generator whose provider outcome is delivered, given enough
    resumptions, writes [emitted] to the body and appends the exchange
    once. *)
Lemma resumes_start (n : nat) g up st :
  pc g = PcStart → upstream g = Delivers up → remaining g ≤ n →
  resumes n g st
  = (emitted up, set_pc PcFinished g,
     append_exchange g (final_text up) (logged g st)).
Proof.
  intros Hpc Hup Hn. unfold remaining in Hn. rewrite Hpc, Hup in Hn.
  destruct n as [|n]; [destruct up; lia|].
  rewrite resumes_S. unfold resume, logged. rewrite Hpc, Hup.
  destruct up as [e|e|chunks fin]; cbv zeta.
  - rewrite continue_except_block by lia. done.
  - destruct n as [|n]; [lia|]. unfold continue at 1. rewrite resumes_S.
    unfold resume. simpl pc. simpl upstream. rewrite Hup. cbv zeta.
    rewrite continue_except_block by lia. done.
  - destruct n as [|n]; [lia|]. unfold continue at 1. rewrite resumes_S.
    unfold resume. simpl pc. simpl upstream. rewrite Hup. cbv zeta.
    rewrite continue_stream_loop by lia.
    by rewrite loop_fragments_start, loop_text_start.
Qed.

Lemma consume_start g up st :
  pc g = PcStart → upstream g = Delivers up →
  consume g st
  = (emitted up, set_pc PcFinished g,
     append_exchange g (final_text up) (logged g st)).
Proof. intros. by apply resumes_start. Qed.

(** ** What a single resumption may change *)

(** A resumption either leaves the generator unfinished and the state's
    lists and store as they were, or brings it to its end. *)
Lemma stream_loop_step fin rest :
  ∀ g full_response st sig g' st',
    stream_loop g full_response rest fin st = (sig, g', st') →
    (pc g' ≠ PcFinished ∧ heap st' = heap st ∧ conversations st' = conversations st)
    ∨ (g' = set_pc PcFinished g ∧ ∃ text, st' = append_exchange g text st).
Proof.
  induction rest as [|chunk_text rest IH]; intros g full_response st sig g' st'; simpl.
  - destruct fin as [|e].
    + intros [= <- <- <-]. right. eauto.
    + unfold except_block, except_commit. destruct (truthy full_response); simpl.
      * intros [= <- <- <-]. right. eauto.
      * intros [= <- <- <-]. left. done.
  - destruct (truthy chunk_text).
    + intros [= <- <- <-]. left. done.
    + apply IH.
Qed.

Lemma resume_step g st sig g' st' :
  resume g st = (sig, g', st') →
  (pc g' ≠ PcFinished ∧ heap st' = heap st ∧ conversations st' = conversations st)
  ∨ (g' = set_pc PcFinished g ∧ ∃ text st0,
       st' = append_exchange g text st0 ∧ heap st0 = heap st
       ∧ conversations st0 = conversations st)
  ∨ (pc g = PcFinished ∧ g' = g ∧ st' = st).
Proof.
  unfold resume.
  assert (Hexc : ∀ fr e st0, heap st0 = heap st → conversations st0 = conversations st →
            except_block g fr e st0 = (sig, g', st') →
            (pc g' ≠ PcFinished ∧ heap st' = heap st ∧ conversations st' = conversations st)
            ∨ (g' = set_pc PcFinished g ∧ ∃ text st0,
                 st' = append_exchange g text st0 ∧ heap st0 = heap st
                 ∧ conversations st0 = conversations st)
            ∨ (pc g = PcFinished ∧ g' = g ∧ st' = st)).
  { intros fr e st0 Hh Hc. unfold except_block, except_commit.
    destruct (truthy fr); simpl; intros [= <- <- <-]; [right; left; eauto 6 | left; done]. }
  destruct (pc g) as [| |fr rest fin|fr error_msg|] eqn:Hpc.
  - destruct (upstream g) as [[e|e|chunks fin]|]; cbv zeta.
    + by apply Hexc.
    + intros [= <- <- <-]. left. done.
    + intros [= <- <- <-]. left. done.
    + intros [= <- <- <-]. left. done.
  - destruct (upstream g) as [[e|e|chunks fin]|]; cbv zeta.
    + by apply Hexc.
    + by apply Hexc.
    + intros [H|[-> [text ->]]]%stream_loop_step; [by left | right; left; eauto 6].
    + intros [= <- <- <-]. left. by rewrite Hpc.
  - intros [H|[-> [text ->]]]%stream_loop_step; [by left | right; left; eauto 6].
  - unfold except_commit. intros [= <- <- <-]. right; left. eauto 6.
  - intros [= <- <- <-]. right; right. done.
Qed.


(** Resumptions compose. *)
Lemma resumes_add n k :
  ∀ g st,
    resumes (n + k) g st
    = let '(frags, g', st') := resumes n g st in
      let '(frags', g'', st'') := resumes k g' st' in
      (frags ++ frags', g'', st'').
Proof.
  induction n as [|n IH]; intros g st.
  - simpl. by destruct (resumes k g st) as [[? ?] ?].
  - change (S n + k) with (S (n + k)). rewrite !resumes_S.
    destruct (resume g st) as [[sig g1] st1]. unfold continue. rewrite IH.
    destruct (resumes n g1 st1) as [[frags1 g2] st2].
    destruct (resumes k g2 st2) as [[frags2 g3] st3].
    by destruct sig.
Qed.


(** A generator whose [send_message] raised [StopIteration] in the worker
    stays at the [await]: a resumption yields nothing, appends nothing and
    does not end it. *)
Lemma resume_stuck g st sig g' st' :
  resume g st = (sig, g', st') →
  upstream g = SendMessageStopIteration → pc g = PcStart ∨ pc g = PcAwaitSend →
  sig = Await ∧ upstream g' = SendMessageStopIteration ∧ pc g' = PcAwaitSend
  ∧ heap st' = heap st ∧ conversations st' = conversations st.
Proof.
  unfold resume. intros Hr Hup [Hpc|Hpc]; rewrite Hpc, Hup in Hr; cbv zeta in Hr;
    injection Hr as <- <- <-; by rewrite ?Hup, ?Hpc.
Qed.

Lemma resumes_stuck n :
  ∀ g st,
    upstream g = SendMessageStopIteration → pc g = PcStart ∨ pc g = PcAwaitSend →
    ∃ g' st',
      resumes n g st = ([], g', st')
      ∧ upstream g' = SendMessageStopIteration
      ∧ (pc g' = PcStart ∨ pc g' = PcAwaitSend)
      ∧ heap st' = heap st ∧ conversations st' = conversations st.
Proof.
  induction n as [|n IH]; intros g st Hup Hpc; [by exists g, st|].
  rewrite resumes_S. destruct (resume g st) as [[sig g1] st1] eqn:Hr.
  destruct (resume_stuck _ _ _ _ _ Hr Hup Hpc) as (-> & Hup1 & Hpc1 & Hh & Hc).
  destruct (IH g1 st1 Hup1 (or_intror Hpc1)) as (g' & st' & Hrs & Hup' & Hpc' & Hh' & Hc').
  exists g', st'. unfold continue. rewrite Hrs.
  repeat split; [done|done|congruence|congruence].
Qed.

(** ** The store *)

Lemma get_or_create_spec conversation_id st l st1 :
  get_or_create_conversation conversation_id st = (l, st1) →
  conversations st1 !! conversation_id = Some l
  ∧ list_at st1 l = messages (get_conversation conversation_id st)
  ∧ provider_calls st1 = provider_calls st
  ∧ (∀ other, other ≠ conversation_id → conversations st1 !! other = conversations st !! other)
  ∧ ((conversations st !! conversation_id = Some l ∧ st1 = st)
     ∨ (conversations st !! conversation_id = None ∧ (l ∉ dom (heap st))
        ∧ heap st1 = <[l := []]> (heap st))).
Proof.
  unfold get_or_create_conversation, get_conversation. simpl.
  destruct (conversations st !! conversation_id) as [l0|] eqn:Hl.
  - intros [= <- <-]. rewrite Hl. repeat split; auto.
  - intros [= <- <-]. simpl. unfold list_at. simpl. rewrite !lookup_insert_eq.
    repeat split; auto.
    + intros other Hne. by rewrite lookup_insert_ne.
    + right. repeat split; auto. apply is_fresh.
Qed.

(** What [chat] does with a content that passes its test. *)
Lemma chat_accepts message model_init up st :
  ¬ blank (Message.content message) →
  ∃ l st0,
    get_or_create_conversation (Message.conversation_id message) st = (l, st0)
    ∧ chat message model_init up st
      = (match model_init with
         | Some e => HTTPException 500 e
         | None =>
             StreamingResponse
               {| history := l; user_message := Message.content message;
                  upstream := up; pc := PcStart |}
               "text/plain; charset=utf-8"
         end,
         log_call (CallGenerativeModel "gemini-2.5-flash") st0).
Proof.
  intros Hnb%not_blank. unfold chat. rewrite chat_guard, Hnb.
  destruct (get_or_create_conversation _ st) as [l st0].
  exists l, st0. split; [done|]. by destruct model_init.
Qed.

Lemma conversations_logged g st : conversations (logged g st) = conversations st.
Proof. unfold logged. by destruct (upstream g) as [[]|]. Qed.

Lemma heap_logged g st : heap (logged g st) = heap st.
Proof. unfold logged. by destruct (upstream g) as [[]|]. Qed.

Lemma list_at_logged g st l : list_at (logged g st) l = list_at st l.
Proof. unfold list_at. by rewrite heap_logged. Qed.

Lemma messages_get conversation_id st :
  messages (get_conversation conversation_id st)
  = match conversations st !! conversation_id with
    | Some l => list_at st l
    | None => []
    end.
Proof. done. Qed.

Lemma messages_bound conversation_id st l :
  conversations st !! conversation_id = Some l →
  messages (get_conversation conversation_id st) = list_at st l.
Proof. intros H. unfold get_conversation. simpl. by rewrite H. Qed.

(** One whole exchange: the fragments written and the history read back. *)
Lemma post_chat_spec message (up : Upstream) st :
  ¬ blank (Message.content message) →
  ∃ st2,
    post_chat message up st = Some (emitted up, st2)
    ∧ messages (get_conversation (Message.conversation_id message) st2)
      = messages (get_conversation (Message.conversation_id message) st)
        ++ [user_msg (Message.content message); assistant_msg (final_text up)].
Proof.
  intros Hnb. destruct (chat_accepts message None up st Hnb) as (l & st0 & Hgc & Hchat).
  unfold post_chat. rewrite Hchat, (consume_start _ up) by done.
  eexists. split; [done|].
  destruct (get_or_create_spec _ _ _ _ Hgc) as (Hl & Hold & _).
  set (g := {| history := l; user_message := _; upstream := _; pc := _ |}).
  rewrite (messages_bound _ _ (history g)).
  - rewrite list_at_exchange_eq, list_at_logged, list_at_log_call. simpl history.
    by rewrite Hold.
  - by rewrite conversations_exchange, conversations_logged.
Qed.

(** ** Fragments and stored text, path by path *)

Lemma str_app_empty a b : a +:+ b = "" → a = "" ∧ b = "".
Proof. by destruct a. Qed.

Lemma filter_truthy_empty chunks : join chunks = "" → List.filter truthy chunks = [].
Proof.
  induction chunks as [|c l IH]; [done|].
  rewrite join_cons. intros [-> Hl]%str_app_empty. simpl. auto.
Qed.

Lemma join_repeat_empty k : join (repeat "" k) = "".
Proof. induction k as [|k IH]; [done|]. simpl repeat. by rewrite join_cons, IH. Qed.

(** The upstream call fails before any text arrived. *)
Lemma emitted_total_failure up e :
  upstream_error up = Some e → upstream_text up = "" →
  emitted up = [error_indicator e] ∧ final_text up = error_indicator e.
Proof.
  intros He Ht. unfold emitted, final_text. rewrite He, Ht. simpl.
  split; [|done].
  destruct up as [| |chunks fin]; [done..|]. simpl in *.
  by rewrite filter_truthy_empty.
Qed.

(** The upstream call fails after some text arrived. *)
Lemma emitted_partial_failure up e :
  upstream_error up = Some e → upstream_text up ≠ "" →
  emitted up = upstream_fragments up ∧ final_text up = upstream_text up.
Proof.
  intros He Ht%truthy_true. unfold emitted, final_text, str_or. rewrite He, Ht.
  by rewrite app_nil_r.
Qed.

(** The upstream response is exhausted. *)
Lemma emitted_exhausted chunks :
  emitted (Streams chunks Exhausted) = List.filter truthy chunks
  ∧ final_text (Streams chunks Exhausted)
    = if truthy (join chunks) then join chunks else FALLBACK.
Proof. unfold emitted, final_text. simpl. by rewrite app_nil_r. Qed.

(** On every path but the exhausted response without text, what was written
    to the body is what is stored. *)
Lemma emitted_text_is_stored up :
  (upstream_error up = None → upstream_text up ≠ "") →
  join (emitted up) = final_text up.
Proof.
  intros Hsilent.
  assert (Hfr : join (upstream_fragments up) = upstream_text up).
  { destruct up; [done..|]. apply join_filter_truthy. }
  unfold emitted, final_text, str_or.
  destruct (upstream_error up) as [e|].
  - destruct (truthy (upstream_text up)) eqn:Ht.
    + by rewrite app_nil_r.
    + apply truthy_false in Ht.
      destruct up as [| |chunks fin]; simpl in *;
        rewrite ?filter_truthy_empty by done; apply str_app_empty_r.
  - specialize (Hsilent eq_refl). apply truthy_true in Hsilent. rewrite Hsilent.
    by rewrite app_nil_r.
Qed.

(** ** The even-count invariant, operation by operation *)

Lemma store_even_initial : store_even initial.
Proof. intros cid. unfold get_conversation, initial. simpl. rewrite lookup_empty. by exists 0. Qed.

Lemma store_even_ext st st' :
  heap st' = heap st → conversations st' = conversations st →
  store_even st → store_even st'.
Proof.
  intros Hh Hc He cid. specialize (He cid).
  unfold get_conversation, list_at in *. simpl in *. by rewrite Hh, Hc.
Qed.

Lemma store_even_exchange g text st :
  store_even st → store_even (append_exchange g text st).
Proof.
  intros He cid. specialize (He cid). rewrite messages_get in *.
  rewrite conversations_exchange.
  destruct (conversations st !! cid) as [l|]; [|done].
  destruct (decide (history g = l)) as [<-|Hne].
  - rewrite list_at_exchange_eq, length_app. simpl.
    destruct He as [k Hk]. exists (S k). lia.
  - by rewrite list_at_exchange_ne.
Qed.

Lemma store_even_resume g st :
  store_even st → store_even (resume g st).2.
Proof.
  intros He. destruct (resume g st) as [[sig g'] st'] eqn:Hr. simpl.
  destruct (resume_step _ _ _ _ _ Hr)
    as [(_ & Hh & Hc)|[(_ & text & st0 & -> & Hh & Hc)|(_ & _ & ->)]].
  - by apply (store_even_ext st).
  - apply store_even_exchange. by apply (store_even_ext st).
  - done.
Qed.

Lemma store_even_get_or_create conversation_id st :
  store_even st → store_even (get_or_create_conversation conversation_id st).2.
Proof.
  intros He. unfold get_or_create_conversation.
  destruct (conversations st !! conversation_id) as [l|] eqn:Hl; [done|]. simpl.
  intros cid. unfold get_conversation, list_at. simpl.
  destruct (decide (conversation_id = cid)) as [<-|Hne].
  - rewrite !lookup_insert_eq. by exists 0.
  - rewrite lookup_insert_ne by done. specialize (He cid).
    unfold get_conversation, list_at in He. simpl in He.
    destruct (conversations st !! cid) as [l'|]; [|done].
    destruct (decide (fresh (dom (heap st)) = l')) as [<-|Hne'].
    + rewrite lookup_insert_eq. by exists 0.
    + by rewrite lookup_insert_ne.
Qed.

Lemma store_even_chat message model_init up st :
  store_even st → store_even (chat message model_init up st).2.
Proof.
  intros He. unfold chat.
  destruct (negb (truthy _) || negb (truthy _)); [done|].
  pose proof (store_even_get_or_create (Message.conversation_id message) st He) as He'.
  destruct (get_or_create_conversation _ st) as [l st0]. simpl in He'.
  destruct model_init; simpl; by apply (store_even_ext st0).
Qed.

Lemma store_even_clear conversation_id st :
  store_even st → store_even (clear_conversation conversation_id st).2.
Proof.
  intros He. unfold clear_conversation. simpl.
  destruct (conversations st !! conversation_id) as [l|] eqn:Hl; [|done].
  intros cid. specialize (He cid). unfold get_conversation, list_at in *. simpl in *.
  destruct (decide (conversation_id = cid)) as [<-|Hne].
  - rewrite lookup_delete_eq. by exists 0.
  - by rewrite lookup_delete_ne.
Qed.

Lemma store_even_apply_op op s :
  store_even (sys_state s) → store_even (sys_state (apply_op op s)).
Proof.
  intros He. destruct op as [message model_init up|i|cid|cid]; simpl.
  - pose proof (store_even_chat message model_init up _ He) as H.
    by destruct (chat message model_init up (sys_state s)) as [r st'].
  - destruct (bodies s !! i) as [g|]; [|done].
    pose proof (store_even_resume g _ He) as H.
    by destruct (resume g (sys_state s)) as [[sig g'] st'].
  - done.
  - by apply store_even_clear.
Qed.

(** * The claims *)

Lemma tokyo_not_blank : ¬ blank (Message.content tokyo).
Proof. intros [H|H]; discriminate H. Defined.

(** The list object is shared, not copied: a [clear] that runs between the
    handler and the end of the body leaves the generator appending to a
    list the store no longer holds.  The claims on one exchange below are
    about [post_chat], where nothing runs in between. *)
Remark clear_before_body_detaches :
  ∃ g st1 frags g' st2,
    chat tokyo None (Streams ["Day 1"] Exhausted) initial
    = (StreamingResponse g "text/plain; charset=utf-8", st1)
    ∧ consume g (clear_conversation "trip1" st1).2 = (frags, g', st2)
    ∧ messages (get_conversation "trip1" st2) = []
    ∧ list_at st2 (history g)
      = [user_msg "Plan a 3-day Tokyo trip"; assistant_msg "Day 1"].
Proof. vm_compute. repeat eexists. Qed.

(** C1, as amended: for every request with non-blank content whose upstream
    response is iterated to exhaustion, the body carries the non-empty chunk
    texts in order, and reading the conversation afterwards returns the
    earlier messages followed by the user message with the submitted content
    and an assistant message whose content is the accumulated text when that
    is non-empty, and the fixed fallback message otherwise. *)
Theorem C1_exchange_recorded message chunks st :
  ¬ blank (Message.content message) →
  ∃ st2,
    post_chat message (Streams chunks Exhausted) st
    = Some (List.filter truthy chunks, st2)
    ∧ join (List.filter truthy chunks) = join chunks
    ∧ messages (get_conversation (Message.conversation_id message) st2)
      = messages (get_conversation (Message.conversation_id message) st)
        ++ [user_msg (Message.content message);
            assistant_msg (if truthy (join chunks) then join chunks else FALLBACK)].
Proof.
  intros Hnb.
  destruct (post_chat_spec message (Streams chunks Exhausted) st Hnb) as (st2 & Hp & Hm).
  destruct (emitted_exhausted chunks) as [He Hf]. rewrite He in Hp. rewrite Hf in Hm.
  exists st2. split; [done|]. split; [apply join_filter_truthy | done].
Qed.

Lemma C1_exchange_recorded_witness :
  ¬ blank (Message.content tokyo)
  ∧ ∃ st2,
      post_chat tokyo (Streams ["Day 1"; ""; ": Asakusa"] Exhausted) initial
      = Some (List.filter truthy ["Day 1"; ""; ": Asakusa"], st2)
      ∧ join (List.filter truthy ["Day 1"; ""; ": Asakusa"]) = join ["Day 1"; ""; ": Asakusa"]
      ∧ messages (get_conversation (Message.conversation_id tokyo) st2)
        = messages (get_conversation (Message.conversation_id tokyo) initial)
          ++ [user_msg (Message.content tokyo);
              assistant_msg (if truthy (join ["Day 1"; ""; ": Asakusa"])
                             then join ["Day 1"; ""; ": Asakusa"] else FALLBACK)].
Proof.
  split; [exact tokyo_not_blank|].
  exact (C1_exchange_recorded tokyo ["Day 1"; ""; ": Asakusa"] initial tokyo_not_blank).
Defined.

(** C1 as stated fails when the upstream response is exhausted without any
    text: the accumulated stream text is empty, and the assistant message
    read back is not the one with that content. *)
Lemma C1_empty_stream_counterexample :
  ¬ ∃ frags st2 prefix,
      post_chat tokyo (Streams [] Exhausted) initial = Some (frags, st2)
      ∧ messages (get_conversation "trip1" st2)
        = prefix ++ [user_msg "Plan a 3-day Tokyo trip"; assistant_msg (join frags)].
Proof.
  intros (frags & st2 & prefix & Hp & Hm).
  destruct (post_chat_spec tokyo (Streams [] Exhausted) initial tokyo_not_blank)
    as (st2' & Hp' & Hm').
  rewrite Hp in Hp'. injection Hp' as -> ->.
  change (Message.conversation_id tokyo) with "trip1" in Hm'. rewrite Hm' in Hm.
  assert (Hsnoc : ∀ (p : list Msg) a b, p ++ [a; b] = (p ++ [a]) ++ [b])
    by (intros; by rewrite <-app_assoc).
  rewrite !Hsnoc in Hm. apply app_inj_tail in Hm as [_ Hm]. discriminate Hm.
Qed.

(** C3, at the input where the code departs from it: when the upstream
    response is exhausted and every chunk had an empty text, nothing is
    written to the body, the assistant message stored is the fallback, and
    the concatenation of the fragments differs from that content. *)
Theorem C3_silent_fallback conversation_id st (k : nat) :
  ∃ st2,
    post_chat {| Message.content := "hi"; Message.conversation_id := conversation_id |}
      (Streams (repeat "" k) Exhausted) st
    = Some ([], st2)
    ∧ messages (get_conversation conversation_id st2)
      = messages (get_conversation conversation_id st)
        ++ [user_msg "hi"; assistant_msg FALLBACK]
    ∧ join [] ≠ content (assistant_msg FALLBACK).
Proof.
  set (message := {| Message.content := "hi"; Message.conversation_id := conversation_id |}).
  assert (Hnb : ¬ blank (Message.content message)) by (intros [H|H]; discriminate H).
  destruct (post_chat_spec message (Streams (repeat "" k) Exhausted) st Hnb) as (st2 & Hp & Hm).
  destruct (emitted_exhausted (repeat "" k)) as [He Hf]. rewrite He in Hp. rewrite Hf in Hm.
  rewrite filter_truthy_empty in Hp by apply join_repeat_empty.
  rewrite join_repeat_empty in Hm.
  exists st2. repeat split; [done..|]. discriminate.
Qed.

(** C4, at the input where the code departs from it: when the upstream
    response is exhausted with an empty accumulator, the fallback message is
    stored as the assistant response, but the body carries no fragment at
    all. *)
Theorem C4_fallback_not_emitted conversation_id st :
  ∃ st2,
    post_chat {| Message.content := "hello"; Message.conversation_id := conversation_id |}
      (Streams [] Exhausted) st
    = Some ([], st2)
    ∧ messages (get_conversation conversation_id st2)
      = messages (get_conversation conversation_id st)
        ++ [user_msg "hello"; assistant_msg FALLBACK].
Proof.
  set (message := {| Message.content := "hello"; Message.conversation_id := conversation_id |}).
  assert (Hnb : ¬ blank (Message.content message)) by (intros [H|H]; discriminate H).
  destruct (post_chat_spec message (Streams [] Exhausted) st Hnb) as (st2 & Hp & Hm).
  by exists st2.
Qed.

(** C5: a request whose content is empty or whitespace-only is answered with
    a 400 error carrying the rejection detail; the state is the one before
    the call, so no provider call was made and no history changed. *)
Theorem C5_blank_rejected message model_init up st :
  blank (Message.content message) →
  chat message model_init up st = (HTTPException 400 "Message cannot be empty", st)
  ∧ provider_calls (chat message model_init up st).2 = provider_calls st
  ∧ ∀ conversation_id,
      get_conversation conversation_id (chat message model_init up st).2
      = get_conversation conversation_id st.
Proof.
  intros Hb%blank_whitespace_only.
  assert (H : chat message model_init up st
              = (HTTPException 400 "Message cannot be empty", st)).
  { unfold chat. by rewrite chat_guard, Hb. }
  by rewrite H.
Qed.

Lemma C5_blank_rejected_witness :
  blank "   "
  ∧ chat {| Message.content := "   "; Message.conversation_id := "trip1" |} None
      (Streams ["Day 1"] Exhausted) initial
    = (HTTPException 400 "Message cannot be empty", initial).
Proof.
  split; [right; reflexivity|].
  apply (C5_blank_rejected {| Message.content := "   "; Message.conversation_id := "trip1" |}
           None (Streams ["Day 1"] Exhausted) initial).
  right; reflexivity.
Defined.

(** When the upstream call fails before any text was emitted and the
    exception is delivered to the generator, the body carries exactly one
    fragment, the non-empty error indicator, and the conversation gains
    exactly the user message and one assistant message, which holds the
    error indicator. *)
Lemma delivered_failure_reported message (up : Upstream) e st :
  ¬ blank (Message.content message) →
  upstream_error up = Some e → upstream_text up = "" →
  ∃ st2,
    post_chat message up st = Some (["Error: " +:+ e], st2)
    ∧ truthy ("Error: " +:+ e) = true
    ∧ messages (get_conversation (Message.conversation_id message) st2)
      = messages (get_conversation (Message.conversation_id message) st)
        ++ [user_msg (Message.content message); assistant_msg ("Error: " +:+ e)].
Proof.
  intros Hnb He Ht.
  destruct (post_chat_spec message up st Hnb) as (st2 & Hp & Hm).
  destruct (emitted_total_failure up e He Ht) as [Hem Hf]. rewrite Hem in Hp. rewrite Hf in Hm.
  by exists st2.
Qed.

(** C6, at the input where the code departs from it: when [send_message]
    raises [StopIteration] in the worker thread, the upstream call has
    failed before any fragment was emitted, but the exception never reaches
    the [except] block: however often the event loop turns to the
    generator, it yields no fragment, it does not come to its end, and the
    conversation read back is as it was before the request. *)
Theorem C6_undelivered_failure conversation_id st (n : nat) :
  ∃ g st1,
    chat {| Message.content := "hi"; Message.conversation_id := conversation_id |}
      None SendMessageStopIteration st
    = (StreamingResponse g "text/plain; charset=utf-8", st1)
    ∧ ∃ g' st',
        resumes n g st1 = ([], g', st')
        ∧ pc g' ≠ PcFinished
        ∧ messages (get_conversation conversation_id st')
          = messages (get_conversation conversation_id st).
Proof.
  set (message := {| Message.content := "hi"; Message.conversation_id := conversation_id |}).
  assert (Hnb : ¬ blank (Message.content message)) by (intros [H|H]; discriminate H).
  destruct (chat_accepts message None SendMessageStopIteration st Hnb)
    as (l & st0 & Hgc & Hchat).
  destruct (get_or_create_spec _ _ _ _ Hgc) as (Hl & Hold & _).
  eexists _, _. split; [exact Hchat|].
  set (g := {| history := l; user_message := _; upstream := _; pc := _ |}).
  set (st1 := log_call _ st0).
  destruct (resumes_stuck n g st1 eq_refl (or_introl eq_refl))
    as (g' & st' & Hr & _ & Hpc & Hh & Hc).
  exists g', st'. split; [done|]. split; [by destruct Hpc as [-> | ->]|].
  rewrite (messages_bound _ _ l) by (by rewrite Hc).
  unfold list_at. rewrite Hh. exact Hold.
Qed.



(** C7: from any state in which every stored conversation has an even
    number of messages, and with any response bodies in flight, every
    sequence of handler calls and generator resumptions (get-or-create in
    [chat], the pairwise append at the end of a body on its success,
    fallback and failure paths, reads, and whole-key clears) leads to a
    state in which every stored conversation has an even number of
    messages. *)
Theorem C7_even_message_count ops st gens :
  store_even st →
  store_even (sys_state (run ops {| sys_state := st; bodies := gens |})).
Proof.
  intros He. unfold run.
  change st with (sys_state {| sys_state := st; bodies := gens |}) in He.
  revert He. generalize {| sys_state := st; bodies := gens |}.
  induction ops as [|op ops IH]; intros s He; [done|].
  simpl. apply IH. by apply store_even_apply_op.
Qed.

Lemma C7_even_message_count_witness :
  store_even initial
  ∧ store_even
      (sys_state
         (run [OpChat tokyo None (Streams ["Day 1"] Exhausted);
               OpChat tokyo None (StartChatRaises "quota");
               OpResume 0; OpResume 1; OpClear "trip1"; OpResume 0; OpResume 0;
               OpResume 1; OpGet "trip1"]
            {| sys_state := initial; bodies := [] |})).
Proof.
  split; [exact store_even_initial|].
  exact (C7_even_message_count _ initial [] store_even_initial).
Defined.

(** C8: for every conversation id and every state, also one without a
    conversation for that id, [clear_conversation] returns the status
    ["cleared"] with the id; reading the conversation afterwards returns no
    messages; other conversations keep theirs; and clearing again returns the
    same body and leaves the state as it is. *)
Theorem C8_clear_total_idempotent conversation_id st :
  (clear_conversation conversation_id st).1
  = {| status := "cleared"; cleared_conversation_id := conversation_id |}
  ∧ get_conversation conversation_id (clear_conversation conversation_id st).2
    = {| view_conversation_id := conversation_id; messages := [] |}
  ∧ (∀ other, other ≠ conversation_id →
       get_conversation other (clear_conversation conversation_id st).2
       = get_conversation other st)
  ∧ clear_conversation conversation_id (clear_conversation conversation_id st).2
    = clear_conversation conversation_id st
  ∧ (conversations st !! conversation_id = None →
       (clear_conversation conversation_id st).2 = st).
Proof.
  unfold clear_conversation, get_conversation. simpl.
  destruct (conversations st !! conversation_id) as [l|] eqn:Hl; simpl.
  - rewrite lookup_delete_eq. repeat split; [|done].
    intros other Hne. by rewrite lookup_delete_ne.
  - rewrite Hl. done.
Qed.

(** C9: when the upstream call fails, the conversation gains the user
    message and one assistant message; if some text had been emitted before
    the failure, the body carries exactly the non-empty chunk texts and the
    stored assistant content is exactly the accumulated text; the error
    indicator is the single fragment and the stored content exactly when the
    accumulator was empty at the failure. *)
Theorem C9_partial_failure message up e st :
  ¬ blank (Message.content message) →
  upstream_error up = Some e →
  ∃ frags stored st2,
    post_chat message up st = Some (frags, st2)
    ∧ messages (get_conversation (Message.conversation_id message) st2)
      = messages (get_conversation (Message.conversation_id message) st)
        ++ [user_msg (Message.content message); assistant_msg stored]
    ∧ (upstream_text up ≠ "" →
         frags = upstream_fragments up ∧ stored = upstream_text up)
    ∧ (upstream_text up = "" →
         frags = ["Error: " +:+ e] ∧ stored = "Error: " +:+ e).
Proof.
  intros Hnb He.
  destruct (post_chat_spec message up st Hnb) as (st2 & Hp & Hm).
  exists (emitted up), (final_text up), st2. split; [done|]. split; [done|]. split.
  - intros Ht. by apply (emitted_partial_failure up e).
  - intros Ht. by apply (emitted_total_failure up e).
Qed.

Lemma C9_partial_failure_witness :
  ¬ blank (Message.content tokyo)
  ∧ upstream_error (Streams ["Day 1"; ""; ": Asakusa"] (Raised "reset")) = Some "reset"
  ∧ ∃ frags stored st2,
      post_chat tokyo (Streams ["Day 1"; ""; ": Asakusa"] (Raised "reset")) initial
      = Some (frags, st2)
      ∧ messages (get_conversation "trip1" st2)
        = messages (get_conversation "trip1" initial)
          ++ [user_msg "Plan a 3-day Tokyo trip"; assistant_msg stored]
      ∧ (upstream_text (Streams ["Day 1"; ""; ": Asakusa"] (Raised "reset")) ≠ "" →
           frags = ["Day 1"; ": Asakusa"] ∧ stored = "Day 1: Asakusa")
      ∧ (upstream_text (Streams ["Day 1"; ""; ": Asakusa"] (Raised "reset")) = "" →
           frags = ["Error: reset"] ∧ stored = "Error: reset").
Proof.
  split; [exact tokyo_not_blank|]. split; [reflexivity|].
  exact (C9_partial_failure tokyo (Streams ["Day 1"; ""; ": Asakusa"] (Raised "reset"))
           "reset" initial tokyo_not_blank eq_refl).
Defined.

(** C10: for every request with non-blank content, when the handler returns,
    and so before the body is first resumed, the conversation id is a key of
    the store, bound to the list it was bound to, or to a new empty list
    when it was absent; other keys are untouched, and the only provider call
    so far is the construction of the model.  This holds as well when that
    construction raises and the handler answers 500: an absent id is then
    left registered with an empty conversation. *)
Theorem C10_id_registered_before_streaming message model_init up st :
  ¬ blank (Message.content message) →
  ∃ l,
    conversations (chat message model_init up st).2 !! Message.conversation_id message = Some l
    ∧ ((conversations st !! Message.conversation_id message = Some l
        ∧ heap (chat message model_init up st).2 = heap st)
       ∨ (conversations st !! Message.conversation_id message = None
          ∧ (l ∉ dom (heap st))
          ∧ heap (chat message model_init up st).2 = <[l := []]> (heap st)))
    ∧ (∀ other, other ≠ Message.conversation_id message →
         conversations (chat message model_init up st).2 !! other = conversations st !! other)
    ∧ provider_calls (chat message model_init up st).2
      = provider_calls st ++ [CallGenerativeModel "gemini-2.5-flash"]
    ∧ (∀ e, model_init = Some e →
         (chat message model_init up st).1 = HTTPException 500 e)
    ∧ (model_init = None →
         (chat message model_init up st).1
         = StreamingResponse
             {| history := l; user_message := Message.content message;
                upstream := up; pc := PcStart |} "text/plain; charset=utf-8").
Proof.
  intros Hnb. destruct (chat_accepts message model_init up st Hnb) as (l & st0 & Hgc & ->).
  destruct (get_or_create_spec _ _ _ _ Hgc) as (Hl & _ & Hcalls & Hother & Hcase).
  exists l. simpl. split; [done|]. split.
  { destruct Hcase as [[? ->]|(? & ? & ?)]; [by left | by right]. }
  split; [done|]. split; [by rewrite Hcalls|].
  split; [by intros e ->|by intros ->].
Qed.

Lemma C10_id_registered_before_streaming_witness :
  ¬ blank (Message.content tokyo)
  ∧ (chat tokyo (Some "model unavailable") (Streams ["Day 1"] Exhausted) initial).1
    = HTTPException 500 "model unavailable"
  ∧ ∃ l,
      conversations
        (chat tokyo (Some "model unavailable") (Streams ["Day 1"] Exhausted) initial).2
      !! "trip1" = Some l
      ∧ conversations initial !! "trip1" = None
      ∧ heap (chat tokyo (Some "model unavailable") (Streams ["Day 1"] Exhausted) initial).2
        !! l = Some [].
Proof.
  split; [exact tokyo_not_blank|].
  destruct (C10_id_registered_before_streaming tokyo (Some "model unavailable")
              (Streams ["Day 1"] Exhausted) initial tokyo_not_blank)
    as (l & Hl & Hcase & _ & _ & H500 & _).
  split; [exact (H500 _ eq_refl)|].
  exists l. split; [exact Hl|]. split; [reflexivity|].
  destruct Hcase as [[Habs _]|(_ & _ & Hheap)].
  - discriminate Habs.
  - rewrite Hheap. apply lookup_insert_eq.
Defined.

(** ** The scenarios of the interface *)

(** One send on a new conversation: the fragments concatenate to the stored
    assistant content. *)
Example scenario_trip1 :
  ∃ st2,
    post_chat tokyo (Streams ["Day 1"; ": Asakusa"] Exhausted) initial
    = Some (["Day 1"; ": Asakusa"], st2)
    ∧ messages (get_conversation "trip1" st2)
      = [user_msg "Plan a 3-day Tokyo trip"; assistant_msg "Day 1: Asakusa"].
Proof. vm_compute. eexists. split; reflexivity. Qed.

(** Two sends in a row on one conversation give four messages in send
    order; the second generator is handed the first exchange as history. *)
Example scenario_two_sends :
  ∃ st2 st4,
    post_chat tokyo (Streams ["Day 1"] Exhausted) initial = Some (["Day 1"], st2)
    ∧ post_chat {| Message.content := "And day 2?"; Message.conversation_id := "trip1" |}
        (Streams ["Day 2"] Exhausted) st2 = Some (["Day 2"], st4)
    ∧ messages (get_conversation "trip1" st4)
      = [user_msg "Plan a 3-day Tokyo trip"; assistant_msg "Day 1";
         user_msg "And day 2?"; assistant_msg "Day 2"]
    ∧ provider_calls st4
      = [CallGenerativeModel "gemini-2.5-flash";
         CallStartChat [];
         CallSendMessage "Plan a 3-day Tokyo trip";
         CallGenerativeModel "gemini-2.5-flash";
         CallStartChat [("user", "Plan a 3-day Tokyo trip"); ("model", "Day 1")];
         CallSendMessage "And day 2?"].
Proof. vm_compute. eexists _, _. repeat split; reflexivity. Qed.

(** * Further properties of the handlers and the generator *)

(** ** Status codes *)

(** X1: [chat] answers 400 with the fixed detail exactly on blank content,
    500 with the exception text exactly when the content is not blank and
    constructing the model raises, and otherwise a streamed plain-text body
    whose generator has not started and holds the submitted content. *)
Theorem X1_chat_response message model_init up st :
  match (chat message model_init up st).1 with
  | HTTPException code detail =>
      (code = 400%Z ∧ detail = "Message cannot be empty"
       ∧ blank (Message.content message))
      ∨ (code = 500%Z ∧ model_init = Some detail
         ∧ ¬ blank (Message.content message))
  | StreamingResponse g media_type =>
      ¬ blank (Message.content message) ∧ model_init = None
      ∧ media_type = "text/plain; charset=utf-8"
      ∧ pc g = PcStart ∧ user_message g = Message.content message
      ∧ upstream g = up
  end.
Proof.
  unfold chat. rewrite chat_guard.
  destruct (whitespace_only (Message.content message)) eqn:Hw.
  - simpl. left. by rewrite blank_whitespace_only.
  - assert (Hnb : ¬ blank (Message.content message))
      by (rewrite blank_whitespace_only; congruence).
    destruct (get_or_create_conversation _ st) as [l st0].
    destruct model_init as [e|]; simpl; [right|]; done.
Qed.

(** ** The body *)

Lemma except_block_yield g full_response e st frag g' st' :
  except_block g full_response e st = (Yield frag, g', st') → frag ≠ "".
Proof.
  unfold except_block, except_commit.
  destruct (truthy full_response); simpl; intros [= <- <- <-]; done.
Qed.

Lemma stream_loop_yield fin rest :
  ∀ g full_response st frag g' st',
    stream_loop g full_response rest fin st = (Yield frag, g', st') → frag ≠ "".
Proof.
  induction rest as [|chunk_text rest IH]; intros g full_response st frag g' st'; simpl.
  - destruct fin as [|e]; [done|]. apply except_block_yield.
  - destruct (truthy chunk_text) eqn:Hc; [|apply IH].
    intros [= <- <- <-]. by apply truthy_true.
Qed.

Lemma resume_yield g st frag g' st' :
  resume g st = (Yield frag, g', st') → frag ≠ "".
Proof.
  unfold resume. destruct (pc g); [| | | |done].
  - destruct (upstream g) as [[]|]; cbv zeta; [apply except_block_yield|done..].
  - destruct (upstream g) as [[]|];
      [apply except_block_yield..|apply stream_loop_yield|done].
  - apply stream_loop_yield.
  - done.
Qed.

(** X2: no resumption of a generator, in whatever state it is, writes an
    empty fragment to the body. *)
Theorem X2_fragments_not_empty (n : nat) g st :
  Forall (λ frag, frag ≠ "") (resumes n g st).1.1.
Proof.
  revert g st. induction n as [|n IH]; intros g st; [by constructor|].
  rewrite resumes_S. destruct (resume g st) as [[sig g1] st1] eqn:Hr.
  unfold continue. specialize (IH g1 st1).
  destruct (resumes n g1 st1) as [[frags g2] st2]. simpl in *.
  destruct sig as [|frag|]; [done| |done].
  constructor; [by eapply resume_yield | done].
Qed.

Lemma emitted_nil up :
  emitted up = [] ↔ upstream_error up = None ∧ upstream_text up = "".
Proof.
  unfold emitted. split.
  - intros [Hfr Herr]%app_eq_nil.
    assert (Ht : upstream_text up = "").
    { destruct up as [| |chunks fin]; [done..|]. simpl in *.
      by rewrite <-join_filter_truthy, Hfr. }
    rewrite Ht in Herr. by destruct (upstream_error up).
  - intros [-> Ht]. rewrite app_nil_r.
    destruct up as [| |chunks fin]; [done..|]. by apply filter_truthy_empty.
Qed.

(** X3: for non-blank content, no fragment is ever written to the body
    exactly in two cases: the provider's response is exhausted without an
    exception and without any text, or [send_message] raises
    [StopIteration] in the worker thread, which is never delivered.  In
    every other case some resumption writes a fragment. *)
Theorem X3_silent_body message (p : Provider) st :
  ¬ blank (Message.content message) →
  ∃ g st1,
    chat message None p st = (StreamingResponse g "text/plain; charset=utf-8", st1)
    ∧ ((∀ n : nat, (resumes n g st1).1.1 = [])
       ↔ match p with
         | Delivers up => upstream_error up = None ∧ upstream_text up = ""
         | SendMessageStopIteration => True
         end).
Proof.
  intros Hnb. destruct (chat_accepts message None p st Hnb) as (l & st0 & Hgc & Hchat).
  eexists _, _. split; [exact Hchat|].
  set (g := {| history := l; user_message := _; upstream := _; pc := _ |}).
  set (st1 := log_call _ st0).
  destruct p as [up|].
  - rewrite <-emitted_nil. split.
    + intros H. specialize (H (remaining g)).
      by rewrite (resumes_start _ g up st1 eq_refl eq_refl) in H.
    + intros Hem n.
      pose proof (resumes_start (n + remaining g) g up st1 eq_refl eq_refl) as Hs.
      rewrite resumes_add in Hs by lia.
      destruct (resumes n g st1) as [[frags g1] st2].
      destruct (resumes (remaining g) g1 st2) as [[frags' g2] st3].
      specialize (Hs ltac:(lia)). injection Hs as Hfr _ _. rewrite Hem in Hfr.
      by apply app_eq_nil in Hfr as [-> _].
  - split; [done|]. intros _ n.
    destruct (resumes_stuck n g st1 eq_refl (or_introl eq_refl)) as (g' & st' & -> & _).
    done.
Qed.

Lemma X3_silent_body_witness :
  ¬ blank (Message.content tokyo)
  ∧ ∃ g st1,
      chat tokyo None (Streams [""; ""] Exhausted) initial
      = (StreamingResponse g "text/plain; charset=utf-8", st1)
      ∧ ((∀ n : nat, (resumes n g st1).1.1 = [])
         ↔ upstream_error (Streams [""; ""] Exhausted) = None
           ∧ upstream_text (Streams [""; ""] Exhausted) = "").
Proof.
  split; [exact tokyo_not_blank|].
  exact (X3_silent_body tokyo (Streams [""; ""] Exhausted) initial tokyo_not_blank).
Defined.

(** ** What the provider is asked *)

(** X4: one exchange constructs the model once, opens a chat session on the
    history as stored before the exchange (the new message is not part of
    it) and, unless opening the session raised, sends the submitted content
    once, unchanged; there is no second attempt on any path. *)
Theorem X4_provider_calls message up st :
  ¬ blank (Message.content message) →
  ∃ frags st2,
    post_chat message up st = Some (frags, st2)
    ∧ provider_calls st2
      = provider_calls st
        ++ [CallGenerativeModel "gemini-2.5-flash";
            CallStartChat
              (to_chat_history
                 (messages (get_conversation (Message.conversation_id message) st)))]
        ++ match up with
           | StartChatRaises _ => []
           | _ => [CallSendMessage (Message.content message)]
           end.
Proof.
  intros Hnb. destruct (chat_accepts message None up st Hnb) as (l & st0 & Hgc & Hchat).
  destruct (get_or_create_spec _ _ _ _ Hgc) as (_ & Hold & Hcalls & _).
  unfold post_chat. rewrite Hchat, (consume_start _ up) by done.
  eexists _, _. split; [done|].
  rewrite provider_calls_exchange. unfold logged. simpl upstream. simpl history.
  rewrite list_at_log_call, Hold.
  destruct up; simpl; rewrite Hcalls, <-?app_assoc; done.
Qed.

Lemma X4_provider_calls_witness :
  ¬ blank (Message.content tokyo)
  ∧ ∃ frags st2,
      post_chat tokyo (StartChatRaises "quota") initial = Some (frags, st2)
      ∧ provider_calls st2
        = provider_calls initial
          ++ [CallGenerativeModel "gemini-2.5-flash";
              CallStartChat
                (to_chat_history
                   (messages (get_conversation (Message.conversation_id tokyo) initial)))]
          ++ [].
Proof.
  split; [exact tokyo_not_blank|].
  exact (X4_provider_calls tokyo (StartChatRaises "quota") initial tokyo_not_blank).
Defined.

(** ** Exchanges and clears in sequence *)

Lemma conversations_after_clear conversation_id st :
  conversations (clear_conversation conversation_id st).2 !! conversation_id = None.
Proof.
  unfold clear_conversation. simpl.
  destruct (conversations st !! conversation_id) eqn:Hl; simpl; [|done].
  apply lookup_delete_eq.
Qed.

Lemma messages_after_clear conversation_id st :
  messages (get_conversation conversation_id (clear_conversation conversation_id st).2) = [].
Proof.
  rewrite messages_get. unfold clear_conversation. simpl.
  destruct (conversations st !! conversation_id) eqn:Hl; simpl.
  - by rewrite lookup_delete_eq.
  - by rewrite Hl.
Qed.

(** X5: an exchange that follows a clear of its conversation starts the
    history afresh: reading it back returns just the new pair. *)
Theorem X5_send_after_clear message up st :
  ¬ blank (Message.content message) →
  ∃ frags st2,
    post_chat message up (clear_conversation (Message.conversation_id message) st).2
    = Some (frags, st2)
    ∧ messages (get_conversation (Message.conversation_id message) st2)
      = [user_msg (Message.content message); assistant_msg (final_text up)].
Proof.
  intros Hnb.
  destruct (post_chat_spec message up
              (clear_conversation (Message.conversation_id message) st).2 Hnb)
    as (st2 & Hp & Hm).
  rewrite messages_after_clear in Hm. eauto.
Qed.

Lemma X5_send_after_clear_witness :
  ¬ blank (Message.content tokyo)
  ∧ ∃ frags st2,
      post_chat tokyo (Streams ["Day 1"] Exhausted)
        (clear_conversation (Message.conversation_id tokyo) initial).2
      = Some (frags, st2)
      ∧ messages (get_conversation (Message.conversation_id tokyo) st2)
        = [user_msg (Message.content tokyo);
           assistant_msg (final_text (Streams ["Day 1"] Exhausted))].
Proof.
  split; [exact tokyo_not_blank|].
  exact (X5_send_after_clear tokyo (Streams ["Day 1"] Exhausted) initial tokyo_not_blank).
Defined.

(** X6: when the conversation is cleared after the handler returned and
    before the body is iterated, the client still receives the whole body,
    but the generator appends to a list the store no longer holds: reading
    the conversation afterwards returns no messages. *)
Theorem X6_clear_mid_exchange message (up : Upstream) st :
  ¬ blank (Message.content message) →
  ∃ g st1,
    chat message None up st = (StreamingResponse g "text/plain; charset=utf-8", st1)
    ∧ (consume g (clear_conversation (Message.conversation_id message) st1).2).1.1
      = emitted up
    ∧ messages
        (get_conversation (Message.conversation_id message)
           (consume g (clear_conversation (Message.conversation_id message) st1).2).2)
      = []
    ∧ list_at (consume g (clear_conversation (Message.conversation_id message) st1).2).2
        (history g)
      = messages (get_conversation (Message.conversation_id message) st)
        ++ [user_msg (Message.content message); assistant_msg (final_text up)].
Proof.
  intros Hnb. destruct (chat_accepts message None up st Hnb) as (l & st0 & Hgc & Hchat).
  destruct (get_or_create_spec _ _ _ _ Hgc) as (Hl & Hold & _).
  eexists _, _. split; [exact Hchat|].
  set (g := {| history := l; user_message := _; upstream := _; pc := _ |}).
  set (st1 := log_call _ st0).
  rewrite (consume_start _ up) by done. cbn [fst snd]. split; [done|]. split.
  - rewrite messages_get, conversations_exchange, conversations_logged.
    by rewrite conversations_after_clear.
  - rewrite list_at_exchange_eq, list_at_logged. simpl history. rewrite <-Hold.
    f_equal. unfold clear_conversation, list_at. simpl. by rewrite Hl.
Qed.

Lemma X6_clear_mid_exchange_witness :
  ¬ blank (Message.content tokyo)
  ∧ ∃ g st1,
      chat tokyo None (Streams ["Day 1"] Exhausted) initial
      = (StreamingResponse g "text/plain; charset=utf-8", st1)
      ∧ (consume g (clear_conversation (Message.conversation_id tokyo) st1).2).1.1
        = emitted (Streams ["Day 1"] Exhausted)
      ∧ messages
          (get_conversation (Message.conversation_id tokyo)
             (consume g (clear_conversation (Message.conversation_id tokyo) st1).2).2)
        = []
      ∧ list_at (consume g (clear_conversation (Message.conversation_id tokyo) st1).2).2
          (history g)
        = messages (get_conversation (Message.conversation_id tokyo) initial)
          ++ [user_msg (Message.content tokyo);
              assistant_msg (final_text (Streams ["Day 1"] Exhausted))].
Proof.
  split; [exact tokyo_not_blank|].
  exact (X6_clear_mid_exchange tokyo (Streams ["Day 1"] Exhausted) initial tokyo_not_blank).
Defined.

(** X7: exchanges made one after the other on one conversation, each with
    non-blank content and a provider outcome that is delivered to the
    generator (a response, exhausted or failing midway, or an exception
    raised by [start_chat] or delivered from [send_message]), all go
    through, and the history read back is the earlier one followed by their
    pairs in the order they were sent. *)
Theorem X7_sequential_exchanges conversation_id requests :
  ∀ st,
    Forall (λ r, ¬ blank r.1) requests →
    ∃ st',
      post_chats conversation_id requests st
      = Some (map (λ r, emitted r.2) requests, st')
      ∧ messages (get_conversation conversation_id st')
        = messages (get_conversation conversation_id st)
          ++ flat_map (λ r, [user_msg r.1; assistant_msg (final_text r.2)]) requests.
Proof.
  induction requests as [|[text up] rest IH]; intros st Hall.
  - exists st. simpl. by rewrite app_nil_r.
  - apply Forall_cons in Hall as [Hnb Hrest]. simpl in Hnb.
    destruct (post_chat_spec
                {| Message.content := text; Message.conversation_id := conversation_id |}
                up st Hnb) as (st1 & Hp & Hm).
    destruct (IH st1 Hrest) as (st' & Hps & Hms).
    exists st'. simpl post_chats. rewrite Hp, Hps. split; [done|].
    rewrite Hms. cbn [Message.content Message.conversation_id] in Hm. rewrite Hm.
    cbn [flat_map fst snd]. by rewrite <-app_assoc.
Qed.

Lemma X7_sequential_exchanges_witness :
  Forall (λ r : string * Upstream, ¬ blank r.1)
    [("Plan a 3-day Tokyo trip", Streams ["Day 1"] Exhausted);
     ("And day 2?", SendMessageRaises "timeout")]
  ∧ ∃ st',
      post_chats "trip1"
        [("Plan a 3-day Tokyo trip", Streams ["Day 1"] Exhausted);
         ("And day 2?", SendMessageRaises "timeout")] initial
      = Some ([["Day 1"]; ["Error: timeout"]], st')
      ∧ messages (get_conversation "trip1" st')
        = [user_msg "Plan a 3-day Tokyo trip"; assistant_msg "Day 1";
           user_msg "And day 2?"; assistant_msg "Error: timeout"].
Proof.
  assert (H : Forall (λ r : string * Upstream, ¬ blank r.1)
                [("Plan a 3-day Tokyo trip", Streams ["Day 1"] Exhausted);
                 ("And day 2?", SendMessageRaises "timeout")]).
  { repeat constructor; intros [H|H]; discriminate H. }
  split; [exact H|].
  exact (X7_sequential_exchanges "trip1" _ initial H).
Defined.

(** ** Histories are made of whole exchanges *)

Lemma dialogue_app h1 h2 : dialogue h1 → dialogue h2 → dialogue (h1 ++ h2).
Proof.
  revert h1. fix IH 1. intros [|u [|a rest]]; simpl; [done|done|].
  intros (Hu & Hnb & Ha & Hne & Hrest) H2. repeat split; auto.
Qed.

Lemma turns_to_chat_history h : dialogue h → turns (to_chat_history h).
Proof.
  revert h. fix IH 1. intros [|u [|a rest]]; simpl; [done|done|].
  intros (Hu & Hnb & Ha & Hne & Hrest). rewrite Hu, Ha. simpl.
  repeat split; auto.
Qed.

Lemma body_ok_set_pc p g :
  ¬ blank (user_message g) →
  match p with PcAfterErrorYield _ error_msg => error_msg ≠ "" | _ => True end →
  body_ok (set_pc p g).
Proof. by split. Qed.

Lemma except_block_effect g full_response e st sig g' st' :
  except_block g full_response e st = (sig, g', st') →
  ¬ blank (user_message g) →
  body_ok g' ∧ history g' = history g
  ∧ (st' = st ∨ ∃ text, text ≠ "" ∧ st' = append_exchange g text st).
Proof.
  unfold except_block, except_commit, str_or.
  destruct (truthy full_response) eqn:Hf; simpl; intros [= <- <- <-] Hnb.
  - split; [by apply body_ok_set_pc|]. split; [done|].
    right. exists full_response. split; [by apply truthy_true | done].
  - split; [by apply body_ok_set_pc|]. split; [done|]. by left.
Qed.

Lemma stream_loop_effect fin rest :
  ∀ g full_response st sig g' st',
    stream_loop g full_response rest fin st = (sig, g', st') →
    ¬ blank (user_message g) →
    body_ok g' ∧ history g' = history g
    ∧ (st' = st ∨ ∃ text, text ≠ "" ∧ st' = append_exchange g text st).
Proof.
  induction rest as [|chunk_text rest IH]; intros g full_response st sig g' st'; simpl.
  - destruct fin as [|e]; [|apply except_block_effect].
    intros [= <- <- <-] Hnb.
    split; [by apply body_ok_set_pc|]. split; [done|].
    right. eexists. split; [|done].
    destruct (truthy full_response) eqn:Hf; simpl; [by apply truthy_true | done].
  - destruct (truthy chunk_text); [|apply IH].
    intros [= <- <- <-] Hnb.
    split; [by apply body_ok_set_pc|]. split; [done|]. by left.
Qed.

(** What one resumption does to the state: it may log the opening of the
    chat session on the history as it is then, and the sending of a
    message; and it appends either nothing or one whole exchange whose
    assistant text is not empty. *)
Lemma resume_effect g st sig g' st' :
  resume g st = (sig, g', st') → body_ok g →
  body_ok g' ∧ history g' = history g
  ∧ ∃ st0 new,
      heap st0 = heap st ∧ conversations st0 = conversations st
      ∧ provider_calls st0 = provider_calls st ++ new
      ∧ Forall (λ c, c = CallStartChat (to_chat_history (list_at st (history g)))
                     ∨ ∃ text, c = CallSendMessage text) new
      ∧ (st' = st0 ∨ ∃ text, text ≠ "" ∧ st' = append_exchange g text st0).
Proof.
  intros Hr [Hnb Hpc]. unfold resume in Hr.
  destruct (pc g) as [| |fr rest fin|fr error_msg|] eqn:Hg.
  - destruct (upstream g) as [[e|e|chunks fin]|]; cbv zeta in Hr.
    + destruct (except_block_effect _ _ _ _ _ _ _ Hr Hnb) as (Hok & Hh & Hst).
      split; [done|]. split; [done|].
      exists (log_call (CallStartChat (to_chat_history (list_at st (history g)))) st),
        [CallStartChat (to_chat_history (list_at st (history g)))].
      do 3 (split; [done|]). split; [apply Forall_singleton; by left | exact Hst].
    + injection Hr as <- <- <-.
      split; [by apply body_ok_set_pc|]. split; [done|].
      eexists _, [CallStartChat (to_chat_history (list_at st (history g)));
                  CallSendMessage (user_message g)].
      split; [|split; [|split; [|split; [|left; reflexivity]]]]; [done|done| |].
      * simpl. by rewrite <-app_assoc.
      * constructor; [by left|]. constructor; [right; eauto | constructor].
    + injection Hr as <- <- <-.
      split; [by apply body_ok_set_pc|]. split; [done|].
      eexists _, [CallStartChat (to_chat_history (list_at st (history g)));
                  CallSendMessage (user_message g)].
      split; [|split; [|split; [|split; [|left; reflexivity]]]]; [done|done| |].
      * simpl. by rewrite <-app_assoc.
      * constructor; [by left|]. constructor; [right; eauto | constructor].
    + injection Hr as <- <- <-.
      split; [by apply body_ok_set_pc|]. split; [done|].
      eexists _, [CallStartChat (to_chat_history (list_at st (history g)));
                  CallSendMessage (user_message g)].
      split; [|split; [|split; [|split; [|left; reflexivity]]]]; [done|done| |].
      * simpl. by rewrite <-app_assoc.
      * constructor; [by left|]. constructor; [right; eauto | constructor].
  - assert (body_ok g' ∧ history g' = history g
            ∧ (st' = st ∨ ∃ text, text ≠ "" ∧ st' = append_exchange g text st))
      as (Hok & Hh & Hst).
    { destruct (upstream g) as [[e|e|chunks fin]|];
        [eapply except_block_effect; eauto..|eapply stream_loop_effect; eauto|].
      injection Hr as <- <- <-. split; [split; [done | by rewrite Hg]|].
      split; [done | by left]. }
    split; [done|]. split; [done|].
    exists st, []. rewrite app_nil_r. do 3 (split; [done|]).
    split; [constructor | exact Hst].
  - destruct (stream_loop_effect _ _ _ _ _ _ _ _ Hr Hnb) as (Hok & Hh & Hst).
    split; [done|]. split; [done|].
    exists st, []. rewrite app_nil_r. do 3 (split; [done|]).
    split; [constructor | exact Hst].
  - unfold except_commit in Hr. injection Hr as <- <- <-.
    split; [by apply body_ok_set_pc|]. split; [done|].
    exists st, []. rewrite app_nil_r. do 3 (split; [done|]). split; [constructor|].
    right. eexists. split; [|done]. unfold str_or.
    destruct (truthy fr) eqn:Hf; [by apply truthy_true | done].
  - injection Hr as <- <- <-. split; [split; [done | by rewrite Hg]|]. split; [done|].
    exists st, []. rewrite app_nil_r. do 3 (split; [done|]).
    split; [constructor | by left].
Qed.

Lemma get_or_create_list_at conversation_id st l :
  list_at (get_or_create_conversation conversation_id st).2 l = list_at st l.
Proof.
  unfold get_or_create_conversation.
  destruct (conversations st !! conversation_id); [done|]. unfold list_at. simpl.
  destruct (decide (fresh (dom (heap st)) = l)) as [<-|Hne].
  - rewrite lookup_insert_eq.
    by rewrite (proj1 (not_elem_of_dom (heap st) _) (is_fresh (dom (heap st)))).
  - by rewrite lookup_insert_ne.
Qed.

Lemma dialogue_exchange g text st :
  body_ok g → text ≠ "" →
  (∀ l, dialogue (list_at st l)) →
  ∀ l, dialogue (list_at (append_exchange g text st) l).
Proof.
  intros [Hnb _] Ht Hd l. destruct (decide (history g = l)) as [<-|Hne].
  - rewrite list_at_exchange_eq. apply dialogue_app; [done|]. by simpl.
  - by rewrite list_at_exchange_ne.
Qed.

Lemma sys_inv_start : sys_inv start.
Proof.
  split; [|by split; constructor]. intros l. unfold list_at. simpl.
  by rewrite lookup_empty.
Qed.

Lemma sys_inv_apply_op op s : sys_inv s → sys_inv (apply_op op s).
Proof.
  intros (Hd & Hb & Hc). destruct op as [message model_init up|i|cid|cid]; simpl.
  - unfold chat. rewrite chat_guard.
    destruct (whitespace_only (Message.content message)) eqn:Hw; [done|].
    assert (Hnb : ¬ blank (Message.content message))
      by (rewrite blank_whitespace_only; congruence).
    pose proof (get_or_create_list_at (Message.conversation_id message) (sys_state s)) as Hl.
    assert (Hcalls : provider_calls (get_or_create_conversation
                       (Message.conversation_id message) (sys_state s)).2
                     = provider_calls (sys_state s)).
    { unfold get_or_create_conversation. by destruct (conversations _ !! _). }
    destruct (get_or_create_conversation _ (sys_state s)) as [l st0]. simpl in Hl, Hcalls.
    assert (Hc' : Forall call_ok
                    (provider_calls (log_call (CallGenerativeModel "gemini-2.5-flash") st0))).
    { simpl. rewrite Hcalls. apply Forall_app. split; [done|]. by repeat constructor. }
    assert (Hd' : ∀ l', dialogue
                    (list_at (log_call (CallGenerativeModel "gemini-2.5-flash") st0) l')).
    { intros l'. by rewrite list_at_log_call, Hl. }
    destruct model_init as [e|]; simpl; (split; [done|]); split; try done.
    apply Forall_app. split; [done|]. by repeat constructor.
  - destruct (bodies s !! i) as [g|] eqn:Hi; [|done].
    destruct (resume g (sys_state s)) as [[sig g'] st'] eqn:Hr. simpl.
    assert (Hg : body_ok g) by (eapply Forall_lookup_1; eauto).
    destruct (resume_effect _ _ _ _ _ Hr Hg)
      as (Hok & Hh & st0 & new & Hheap & Hconv & Hcalls & Hnew & Hst).
    assert (Hd0 : ∀ l, dialogue (list_at st0 l)).
    { intros l. unfold list_at. rewrite Hheap. apply Hd. }
    assert (Hc0 : Forall call_ok (provider_calls st0)).
    { rewrite Hcalls. apply Forall_app. split; [done|].
      eapply Forall_impl; [exact Hnew|]. intros c [->|[text ->]]; simpl; [|done].
      apply turns_to_chat_history, Hd. }
    split; [|split; [by apply Forall_insert|]].
    + destruct Hst as [->|(text & Ht & ->)]; [done | by apply dialogue_exchange].
    + destruct Hst as [->|(text & Ht & ->)]; exact Hc0.
  - done.
  - unfold clear_conversation. simpl.
    destruct (conversations (sys_state s) !! cid); simpl; done.
Qed.

Lemma sys_inv_run ops : ∀ s, sys_inv s → sys_inv (run ops s).
Proof.
  unfold run. induction ops as [|op ops IH]; intros s Hs; [done|].
  simpl. apply IH. by apply sys_inv_apply_op.
Qed.

(** X8: whatever handler calls and generator resumptions the server has
    run since start-up, in whatever interleaving, every conversation read
    back is a sequence of whole exchanges: a user message with non-blank
    content followed by an assistant message with non-empty content. *)
Theorem X8_stored_dialogues ops conversation_id :
  dialogue (messages (get_conversation conversation_id (sys_state (run ops start)))).
Proof.
  destruct (sys_inv_run ops start sys_inv_start) as (Hd & _).
  rewrite messages_get. by destruct (conversations _ !! conversation_id).
Qed.

(** X9: whatever the server has run since start-up, every history it handed
    to the provider when opening a chat session was made of whole turns: a
    ["user"] turn followed by a ["model"] turn with non-empty text. *)
Theorem X9_provider_histories ops :
  Forall call_ok (provider_calls (sys_state (run ops start))).
Proof. by destruct (sys_inv_run ops start sys_inv_start) as (_ & _ & Hc). Qed.

(** ** Conversations do not share a list *)

Lemma store_wf_ext st st' :
  dom (heap st) ⊆ dom (heap st') → conversations st' = conversations st →
  store_wf st → store_wf st'.
Proof.
  intros Hdom Hc [Hb Hi]. split.
  - intros cid l. rewrite Hc. intros H. apply Hdom. eauto.
  - intros cid1 cid2 l. rewrite Hc. apply Hi.
Qed.

Lemma dom_heap_exchange g text st :
  dom (heap st) ⊆ dom (heap (append_exchange g text st)).
Proof. unfold append_exchange, list_append. simpl. rewrite !dom_insert. set_solver. Qed.

Lemma store_wf_get_or_create conversation_id st :
  store_wf st → store_wf (get_or_create_conversation conversation_id st).2.
Proof.
  intros [Hb Hi]. unfold get_or_create_conversation.
  destruct (conversations st !! conversation_id) as [l|] eqn:Hl; [done|]. simpl.
  pose proof (is_fresh (dom (heap st))) as Hfresh.
  split; simpl.
  - intros cid l. rewrite dom_insert. destruct (decide (conversation_id = cid)) as [<-|Hne].
    + rewrite lookup_insert_eq. intros [= <-]. set_solver.
    + rewrite lookup_insert_ne by done. intros H%Hb. set_solver.
  - intros cid1 cid2 l.
    destruct (decide (conversation_id = cid1)) as [<-|Hne1];
      destruct (decide (conversation_id = cid2)) as [<-|Hne2];
      rewrite ?lookup_insert_eq, ?lookup_insert_ne by done; [done| | |apply Hi].
    + intros [= <-] H%Hb. done.
    + intros H%Hb [= <-]. done.
Qed.

Lemma store_wf_apply_op op s :
  store_wf (sys_state s) → store_wf (sys_state (apply_op op s)).
Proof.
  intros Hwf. destruct op as [message model_init up|i|cid|cid]; simpl.
  - unfold chat. destruct (negb (truthy _) || negb (truthy _)); [done|].
    pose proof (store_wf_get_or_create (Message.conversation_id message) _ Hwf) as H.
    destruct (get_or_create_conversation _ (sys_state s)) as [l st0].
    by destruct model_init.
  - destruct (bodies s !! i) as [g|]; [|done].
    destruct (resume g (sys_state s)) as [[sig g'] st'] eqn:Hr. simpl.
    destruct (resume_step _ _ _ _ _ Hr)
      as [(_ & Hh & Hc)|[(_ & text & st0 & -> & Hh & Hc)|(_ & _ & ->)]]; [| |done].
    + apply (store_wf_ext (sys_state s)); [by rewrite Hh | done | done].
    + apply (store_wf_ext (sys_state s)); [|done|done].
      rewrite <-Hh. apply dom_heap_exchange.
  - done.
  - destruct Hwf as [Hb Hi]. unfold clear_conversation. simpl.
    destruct (conversations (sys_state s) !! cid) eqn:Hl; [|done]. split; simpl.
    + intros cid' l [_ H]%lookup_delete_Some. eauto.
    + intros cid1 cid2 l [_ H1]%lookup_delete_Some [_ H2]%lookup_delete_Some. eauto.
Qed.

Lemma store_wf_run ops : ∀ s, store_wf (sys_state s) → store_wf (sys_state (run ops s)).
Proof.
  unfold run. induction ops as [|op ops IH]; intros s Hs; [done|].
  simpl. apply IH. by apply store_wf_apply_op.
Qed.

Lemma store_wf_start : store_wf (sys_state start).
Proof. split; simpl; intros *; by rewrite lookup_empty. Qed.

(** In a store where every id has a list of its own, an exchange on one
    conversation leaves every other one as it was. *)
Lemma post_chat_frame message (up : Upstream) st other :
  store_wf st → ¬ blank (Message.content message) →
  other ≠ Message.conversation_id message →
  ∃ frags st2,
    post_chat message up st = Some (frags, st2)
    ∧ get_conversation other st2 = get_conversation other st.
Proof.
  intros [Hb Hi] Hnb Hne.
  destruct (chat_accepts message None up st Hnb) as (l & st0 & Hgc & Hchat).
  destruct (get_or_create_spec _ _ _ _ Hgc) as (Hl & _ & _ & Hother & Hcase).
  pose proof (get_or_create_list_at (Message.conversation_id message) st) as Hla.
  rewrite Hgc in Hla. simpl in Hla.
  unfold post_chat. rewrite Hchat, (consume_start _ up) by done.
  eexists _, _. split; [done|].
  set (g := {| history := l; user_message := _; upstream := _; pc := _ |}).
  unfold get_conversation. f_equal.
  rewrite conversations_exchange, conversations_logged. simpl conversations.
  rewrite Hother by done.
  destruct (conversations st !! other) as [l'|] eqn:Hl'; [|done].
  assert (Hll : history g ≠ l').
  { simpl. intros <-. destruct Hcase as [[Hex _]|(_ & Hfresh & _)].
    - by specialize (Hi _ _ _ Hl' Hex).
    - by apply Hb in Hl'. }
  by rewrite list_at_exchange_ne, list_at_logged, list_at_log_call, Hla.
Qed.

(** X10: in every state the server reaches from start-up, an exchange on
    one conversation changes nothing of what reading any other conversation
    returns. *)
Theorem X10_other_conversations_untouched ops message up other :
  ¬ blank (Message.content message) →
  other ≠ Message.conversation_id message →
  ∃ frags st2,
    post_chat message up (sys_state (run ops start)) = Some (frags, st2)
    ∧ get_conversation other st2 = get_conversation other (sys_state (run ops start)).
Proof.
  intros Hnb Hne. apply post_chat_frame; [|done..].
  apply store_wf_run, store_wf_start.
Qed.

Lemma X10_other_conversations_untouched_witness :
  ¬ blank (Message.content tokyo)
  ∧ "trip2" ≠ Message.conversation_id tokyo
  ∧ ∃ frags st2,
      post_chat tokyo (Streams ["Day 1"] Exhausted)
        (sys_state
           (run [OpChat {| Message.content := "Rome?"; Message.conversation_id := "trip2" |}
                   None (Streams ["Si"] Exhausted);
                 OpResume 0; OpResume 0; OpResume 0] start))
      = Some (frags, st2)
      ∧ get_conversation "trip2" st2
        = get_conversation "trip2"
            (sys_state
               (run [OpChat {| Message.content := "Rome?"; Message.conversation_id := "trip2" |}
                       None (Streams ["Si"] Exhausted);
                     OpResume 0; OpResume 0; OpResume 0] start)).
Proof.
  split; [exact tokyo_not_blank|]. split; [discriminate|].
  apply (X10_other_conversations_untouched
           [OpChat {| Message.content := "Rome?"; Message.conversation_id := "trip2" |}
              None (Streams ["Si"] Exhausted);
            OpResume 0; OpResume 0; OpResume 0]
           tokyo (Streams ["Day 1"] Exhausted) "trip2" tokyo_not_blank).
  discriminate.
Defined.

(** ** Histories only grow, short of a clear *)

Lemma chat_messages message model_init up st conversation_id :
  messages (get_conversation conversation_id (chat message model_init up st).2)
  = messages (get_conversation conversation_id st).
Proof.
  unfold chat. destruct (negb (truthy _) || negb (truthy _)); [done|].
  destruct (get_or_create_conversation _ st) as [l st0] eqn:Hgc.
  destruct (get_or_create_spec _ _ _ _ Hgc) as (Hl & Hold & _ & Hother & _).
  pose proof (get_or_create_list_at (Message.conversation_id message) st) as Hla.
  rewrite Hgc in Hla. simpl in Hla.
  assert (H : messages (get_conversation conversation_id st0)
              = messages (get_conversation conversation_id st)).
  { destruct (decide (conversation_id = Message.conversation_id message)) as [->|Hne].
    - by rewrite (messages_bound _ _ l).
    - rewrite !messages_get, Hother by done.
      destruct (conversations st !! conversation_id); [apply Hla | done]. }
  by destruct model_init.
Qed.

Lemma resume_messages_prefix g st conversation_id :
  messages (get_conversation conversation_id st)
  `prefix_of` messages (get_conversation conversation_id (resume g st).2).
Proof.
  destruct (resume g st) as [[sig g'] st'] eqn:Hr. cbn [snd].
  rewrite !messages_get.
  destruct (resume_step _ _ _ _ _ Hr)
    as [(_ & Hh & Hc)|[(_ & text & st0 & -> & Hh & Hc)|(_ & _ & ->)]]; [| |done].
  - rewrite Hc. unfold list_at. by rewrite Hh.
  - rewrite conversations_exchange, Hc.
    destruct (conversations st !! conversation_id) as [l|]; [|done].
    assert (Hl0 : list_at st0 l = list_at st l) by (unfold list_at; by rewrite Hh).
    destruct (decide (history g = l)) as [<-|Hne].
    + rewrite list_at_exchange_eq, Hl0. by apply prefix_app_r.
    + by rewrite list_at_exchange_ne, Hl0.
Qed.

Lemma apply_op_messages_prefix op s conversation_id :
  is_clear op = false →
  messages (get_conversation conversation_id (sys_state s))
  `prefix_of` messages (get_conversation conversation_id (sys_state (apply_op op s))).
Proof.
  intros Hop. destruct op as [message model_init up|i|cid|cid]; simpl; [| |done|done].
  - pose proof (chat_messages message model_init up (sys_state s) conversation_id) as H.
    destruct (chat message model_init up (sys_state s)) as [r st']. simpl in *.
    by rewrite H.
  - destruct (bodies s !! i) as [g|]; [|done].
    pose proof (resume_messages_prefix g (sys_state s) conversation_id) as H.
    by destruct (resume g (sys_state s)) as [[sig g'] st'].
Qed.

(** X11: as long as no clear runs, whatever else the server runs (handler
    calls for any conversation, resumptions of any body, reads), every
    conversation read back afterwards extends what it was before: stored
    messages are never dropped, changed or reordered. *)
Theorem X11_append_only ops :
  ∀ s conversation_id,
    Forall (λ op, is_clear op = false) ops →
    messages (get_conversation conversation_id (sys_state s))
    `prefix_of` messages (get_conversation conversation_id (sys_state (run ops s))).
Proof.
  unfold run. induction ops as [|op ops IH]; intros s conversation_id Hall; [done|].
  apply Forall_cons in Hall as [Hop Hrest]. simpl.
  etrans; [by apply apply_op_messages_prefix | by apply IH].
Qed.

Lemma X11_append_only_witness :
  Forall (λ op, is_clear op = false)
    [OpChat tokyo None (Streams ["Day 1"] (Raised "reset")); OpResume 0;
     OpChat tokyo None (Streams ["Day 2"] Exhausted); OpResume 1; OpResume 0;
     OpGet "trip1"; OpResume 1; OpResume 0; OpResume 1]
  ∧ messages (get_conversation "trip1" (sys_state start))
    `prefix_of`
    messages
      (get_conversation "trip1"
         (sys_state
            (run [OpChat tokyo None (Streams ["Day 1"] (Raised "reset")); OpResume 0;
                  OpChat tokyo None (Streams ["Day 2"] Exhausted); OpResume 1; OpResume 0;
                  OpGet "trip1"; OpResume 1; OpResume 0; OpResume 1] start))).
Proof.
  assert (H : Forall (λ op, is_clear op = false)
                [OpChat tokyo None (Streams ["Day 1"] (Raised "reset")); OpResume 0;
                 OpChat tokyo None (Streams ["Day 2"] Exhausted); OpResume 1; OpResume 0;
                 OpGet "trip1"; OpResume 1; OpResume 0; OpResume 1])
    by (repeat constructor).
  split; [exact H|].
  exact (X11_append_only _ start "trip1" H).
Defined.

(** ** [format_conversation_history] *)

Lemma concat_cons2 sep x y l :
  String.concat sep (x :: y :: l) = x +:+ sep +:+ String.concat sep (y :: l).
Proof. done. Qed.

Lemma concat_app sep l1 l2 :
  l1 ≠ [] → l2 ≠ [] →
  String.concat sep (l1 ++ l2) = String.concat sep l1 +:+ sep +:+ String.concat sep l2.
Proof.
  intros H1 H2. induction l1 as [|x [|x' l1] IH]; [done| |].
  - destruct l2 as [|y l2]; [done|]. apply concat_cons2.
  - change ((x :: x' :: l1) ++ l2) with (x :: x' :: (l1 ++ l2)).
    rewrite !concat_cons2. change (x' :: l1 ++ l2) with ((x' :: l1) ++ l2).
    rewrite IH by done. by rewrite !str_app_assoc.
Qed.

(** X12: formatting a history made of two non-empty parts gives the two
    formatted parts with one newline in between; so each entry takes its
    own line, in order, with no newline before the first or after the
    last. *)
Theorem X12_format_app h1 h2 :
  h1 ≠ [] → h2 ≠ [] →
  format_conversation_history (h1 ++ h2)
  = format_conversation_history h1 +:+ newline +:+ format_conversation_history h2.
Proof.
  intros H1 H2. unfold format_conversation_history. rewrite map_app.
  apply concat_app; by destruct h1, h2.
Qed.

Lemma X12_format_app_witness :
  [user_msg "Tokyo?"] ≠ [] ∧ [assistant_msg "Day 1"; user_msg "More"] ≠ []
  ∧ format_conversation_history
      ([user_msg "Tokyo?"] ++ [assistant_msg "Day 1"; user_msg "More"])
    = format_conversation_history [user_msg "Tokyo?"]
      +:+ newline
      +:+ format_conversation_history [assistant_msg "Day 1"; user_msg "More"].
Proof.
  split; [discriminate|]. split; [discriminate|].
  apply (X12_format_app [user_msg "Tokyo?"] [assistant_msg "Day 1"; user_msg "More"]);
    discriminate.
Defined.

(** X13: the formatted text does not determine the history: contents are
    not escaped, so one user message whose content goes on with a newline
    and ["Assistant: ..."] is formatted exactly like a user message followed
    by an assistant message. *)
Theorem X13_format_ambiguous u a :
  format_conversation_history [user_msg (u +:+ newline +:+ "Assistant: " +:+ a)]
  = format_conversation_history [user_msg u; assistant_msg a]
  ∧ [user_msg (u +:+ newline +:+ "Assistant: " +:+ a)] ≠ [user_msg u; assistant_msg a].
Proof.
  split; [|discriminate].
  unfold format_conversation_history, format_line. simpl map.
  rewrite concat_cons2. simpl String.concat. simpl String.eqb. cbv iota.
  by rewrite !str_app_assoc.
Qed.

(** ** An exchange is recorded whatever runs in between *)

Lemma except_block_pending g full_response e st sig g' st' :
  except_block g full_response e st = (sig, g', st') →
  history g' = history g ∧ user_message g' = user_message g
  ∧ ((pc g' ≠ PcFinished ∧ st' = st
      ∧ pending_text g' = str_or full_response (error_indicator e))
     ∨ (pc g' = PcFinished
        ∧ st' = append_exchange g (str_or full_response (error_indicator e)) st)).
Proof.
  unfold except_block, except_commit.
  destruct (truthy full_response) eqn:Hf; simpl; intros [= <- <- <-];
    (split; [done|]); (split; [done|]); [by right | by left].
Qed.

Lemma stream_loop_pending fin rest :
  ∀ g full_response st sig g' st',
    stream_loop g full_response rest fin st = (sig, g', st') →
    history g' = history g ∧ user_message g' = user_message g
    ∧ ((pc g' ≠ PcFinished ∧ st' = st
        ∧ pending_text g' = loop_text full_response rest fin)
       ∨ (pc g' = PcFinished
          ∧ st' = append_exchange g (loop_text full_response rest fin) st)).
Proof.
  induction rest as [|chunk_text rest IH]; intros g full_response st sig g' st'.
  - simpl stream_loop. unfold loop_text. simpl join. rewrite str_app_empty_r.
    destruct fin as [|e]; [|apply except_block_pending].
    rewrite str_or_fallback. intros [= <- <- <-]. split; [done|]. split; [done|]. by right.
  - simpl stream_loop. destruct (truthy chunk_text) eqn:Hc.
    + intros [= <- <- <-]. split; [done|]. split; [done|]. left.
      split; [done|]. split; [done|].
      unfold pending_text, loop_text. simpl pc. by rewrite join_cons, str_app_assoc.
    + apply truthy_false in Hc as ->. intros H. specialize (IH _ _ _ _ _ _ H).
      unfold loop_text in *. by rewrite join_cons.
Qed.

Lemma final_text_raises e :
  final_text (StartChatRaises e) = str_or "" (error_indicator e)
  ∧ final_text (SendMessageRaises e) = str_or "" (error_indicator e).
Proof. done. Qed.

(** A resumption of an unfinished generator either keeps the text to be
    stored and appends nothing, or ends the generator and appends the
    exchange with that text. *)
Lemma resume_pending g st sig g' st' :
  resume g st = (sig, g', st') → pc g ≠ PcFinished →
  history g' = history g ∧ user_message g' = user_message g
  ∧ ∃ st0,
      heap st0 = heap st ∧ conversations st0 = conversations st
      ∧ ((pc g' ≠ PcFinished ∧ st' = st0 ∧ pending_text g' = pending_text g)
         ∨ (pc g' = PcFinished ∧ st' = append_exchange g (pending_text g) st0)).
Proof.
  intros Hr Hnf. unfold resume in Hr. unfold pending_text at 2 3.
  destruct (pc g) as [| |fr rest fin|fr error_msg|] eqn:Hg; [| | | |done].
  - destruct (upstream g) as [[e|e|chunks fin]|] eqn:Hup; cbv zeta in Hr.
    + destruct (except_block_pending _ _ _ _ _ _ _ Hr) as (Hh & Hu & Hcase).
      split; [done|]. split; [done|]. eexists. split; [|split; [|exact Hcase]]; done.
    + injection Hr as <- <- <-. split; [done|]. split; [done|].
      eexists. split; [|split; [|left; split; [|split; [reflexivity|]]]]; try done.
      unfold pending_text. simpl. by rewrite Hup.
    + injection Hr as <- <- <-. split; [done|]. split; [done|].
      eexists. split; [|split; [|left; split; [|split; [reflexivity|]]]]; try done.
      unfold pending_text. simpl. by rewrite Hup.
    + injection Hr as <- <- <-. split; [done|]. split; [done|].
      eexists. split; [|split; [|left; split; [|split; [reflexivity|]]]]; try done.
      unfold pending_text. simpl. by rewrite Hup.
  - destruct (upstream g) as [[e|e|chunks fin]|] eqn:Hup;
      [| | |injection Hr as <- <- <-; split; [done|]; split; [done|]; exists st;
            split; [done|]; split; [done|]; left; split; [congruence|]; split; [done|];
            unfold pending_text; by rewrite Hg, Hup].
    + destruct (except_block_pending _ _ _ _ _ _ _ Hr) as (Hh & Hu & Hcase).
      split; [done|]. split; [done|]. exists st. split; [done|]. split; [done|].
      exact Hcase.
    + destruct (except_block_pending _ _ _ _ _ _ _ Hr) as (Hh & Hu & Hcase).
      split; [done|]. split; [done|]. exists st. split; [done|]. split; [done|].
      exact Hcase.
    + destruct (stream_loop_pending _ _ _ _ _ _ _ _ Hr) as (Hh & Hu & Hcase).
      split; [done|]. split; [done|]. exists st. split; [done|]. split; [done|].
      by rewrite <-loop_text_start.
  - destruct (stream_loop_pending _ _ _ _ _ _ _ _ Hr) as (Hh & Hu & Hcase).
    split; [done|]. split; [done|]. exists st. split; [done|]. split; [done|].
    exact Hcase.
  - unfold except_commit in Hr. injection Hr as <- <- <-.
    split; [done|]. split; [done|]. exists st. split; [done|]. split; [done|]. by right.
Qed.

Lemma resume_list_at_prefix g st l :
  list_at st l `prefix_of` list_at (resume g st).2 l.
Proof.
  destruct (resume g st) as [[sig g'] st'] eqn:Hr. cbn [snd].
  destruct (resume_step _ _ _ _ _ Hr)
    as [(_ & Hh & Hc)|[(_ & text & st0 & -> & Hh & Hc)|(_ & _ & ->)]]; [| |done].
  - unfold list_at. by rewrite Hh.
  - assert (Hl0 : list_at st0 l = list_at st l) by (unfold list_at; by rewrite Hh).
    destruct (decide (history g = l)) as [<-|Hne].
    + rewrite list_at_exchange_eq, Hl0. by apply prefix_app_r.
    + by rewrite list_at_exchange_ne, Hl0.
Qed.

Lemma resume_conversations g st : conversations (resume g st).2 = conversations st.
Proof.
  destruct (resume g st) as [[sig g'] st'] eqn:Hr. cbn [snd].
  by destruct (resume_step _ _ _ _ _ Hr)
    as [(_ & _ & Hc)|[(_ & text & st0 & -> & _ & Hc)|(_ & _ & ->)]].
Qed.

Lemma recorded_prefix u text h h' : h `prefix_of` h' → recorded u text h → recorded u text h'.
Proof.
  intros [k ->] (before & after & ->). exists before, (after ++ k).
  by rewrite <-!app_assoc.
Qed.

Lemma chat_keeps_binding message model_init up st conversation_id l :
  conversations st !! conversation_id = Some l →
  conversations (chat message model_init up st).2 !! conversation_id = Some l.
Proof.
  intros Hl. unfold chat. destruct (negb (truthy _) || negb (truthy _)); [done|].
  destruct (get_or_create_conversation _ st) as [l0 st0] eqn:Hgc.
  destruct (get_or_create_spec _ _ _ _ Hgc) as (Hl0 & _ & _ & Hother & Hcase).
  assert (conversations st0 !! conversation_id = Some l).
  { destruct (decide (conversation_id = Message.conversation_id message)) as [->|Hne].
    - destruct Hcase as [[_ ->]|[Hnone _]]; [done | congruence].
    - by rewrite Hother. }
  by destruct model_init.
Qed.

Lemma chat_list_at message model_init up st l :
  list_at (chat message model_init up st).2 l = list_at st l.
Proof.
  unfold chat. destruct (negb (truthy _) || negb (truthy _)); [done|].
  pose proof (get_or_create_list_at (Message.conversation_id message) st l) as H.
  destruct (get_or_create_conversation _ st) as [l0 st0]. simpl in H.
  by destruct model_init.
Qed.

Lemma tracked_apply_op conversation_id i l u text op s :
  op ≠ OpClear conversation_id →
  tracked conversation_id i l u text s →
  tracked conversation_id i l u text (apply_op op s).
Proof.
  intros Hop (Hl & g & Hi & Hh & Hu & Hcase). unfold tracked.
  destruct op as [message model_init up|j|cid|cid]; cbn [apply_op].
  - pose proof (chat_keeps_binding message model_init up _ _ _ Hl) as Hl'.
    pose proof (chat_list_at message model_init up (sys_state s) l) as Hla.
    destruct (chat message model_init up (sys_state s)) as [r st'].
    cbn [fst snd sys_state bodies] in *.
    split; [done|]. exists g. split.
    { destruct r; [done|]. by apply lookup_app_l_Some. }
    split; [done|]. split; [done|]. by rewrite Hla.
  - destruct (bodies s !! j) as [gj|] eqn:Hj; [|by split; eauto 10].
    pose proof (resume_conversations gj (sys_state s)) as Hconv.
    pose proof (resume_list_at_prefix gj (sys_state s) l) as Hpre.
    destruct (resume gj (sys_state s)) as [[sig g'] st'] eqn:Hr.
    cbn [fst snd sys_state bodies] in *.
    split; [by rewrite Hconv|].
    destruct (decide (j = i)) as [->|Hne].
    + assert (gj = g) as -> by congruence.
      exists g'. split; [apply list_lookup_insert_eq; by eapply lookup_lt_Some|].
      destruct Hcase as [[Hnf Hpt]|[Hfin Hrec]].
      * destruct (resume_pending _ _ _ _ _ Hr Hnf)
          as (Hh' & Hu' & st0 & Hheap & _ & [(Hnf' & -> & Hpt')|(Hfin' & ->)]).
        -- split; [congruence|]. split; [congruence|]. left. split; [done|]. congruence.
        -- split; [congruence|]. split; [congruence|]. right. split; [done|].
           rewrite <-Hh, list_at_exchange_eq, Hpt, Hu.
           by exists (list_at st0 (history g)), [].
      * unfold resume in Hr. rewrite Hfin in Hr. injection Hr as <- <- <-.
        split; [done|]. split; [done|]. by right.
    + exists g. split; [by rewrite list_lookup_insert_ne|].
      split; [done|]. split; [done|].
      destruct Hcase as [?|[Hfin Hrec]]; [by left|]. right. split; [done|].
      by eapply recorded_prefix.
  - split; eauto 10.
  - cbn [sys_state bodies]. split.
    + unfold clear_conversation. cbn [snd].
      destruct (conversations (sys_state s) !! cid) eqn:Hc; [|done].
      cbn [conversations]. rewrite lookup_delete_ne; [done|]. congruence.
    + exists g. split; [done|]. split; [done|]. split; [done|].
      assert (Hla : list_at (clear_conversation cid (sys_state s)).2 l
                    = list_at (sys_state s) l).
      { unfold clear_conversation. cbn [snd].
        by destruct (conversations (sys_state s) !! cid). }
      by rewrite Hla.
Qed.

Lemma tracked_run conversation_id i l u text ops :
  ∀ s,
    Forall (λ op, op ≠ OpClear conversation_id) ops →
    tracked conversation_id i l u text s →
    tracked conversation_id i l u text (run ops s).
Proof.
  unfold run. induction ops as [|op ops IH]; intros s Hall Ht; [done|].
  apply Forall_cons in Hall as [Hop Hrest]. simpl. apply IH; [done|].
  by apply tracked_apply_op.
Qed.

Lemma stuck_apply_op op i s : stuck i s → stuck i (apply_op op s).
Proof.
  intros (g & Hi & Hup & Hpc). unfold stuck.
  destruct op as [message model_init up|j|cid|cid]; cbn [apply_op]; [| |by eauto..].
  - destruct (chat message model_init up (sys_state s)) as [r st']. cbn [bodies].
    exists g. split; [|done]. destruct r; [done|]. by apply lookup_app_l_Some.
  - destruct (bodies s !! j) as [gj|] eqn:Hj; [|by eauto].
    destruct (resume gj (sys_state s)) as [[sig g'] st'] eqn:Hr. cbn [bodies].
    destruct (decide (j = i)) as [->|Hne].
    + assert (gj = g) as -> by congruence.
      destruct (resume_stuck _ _ _ _ _ Hr Hup Hpc) as (_ & Hup' & Hpc' & _).
      exists g'. split; [apply list_lookup_insert_eq; by eapply lookup_lt_Some|]. auto.
    + exists g. split; [by rewrite list_lookup_insert_ne|]. done.
Qed.

Lemma stuck_run ops i : ∀ s, stuck i s → stuck i (run ops s).
Proof.
  unfold run. induction ops as [|op ops IH]; intros s Hs; [done|].
  simpl. apply IH. by apply stuck_apply_op.
Qed.

(** X14: take a body that has not started, whose conversation is bound to
    the list it holds.  Whatever the server runs from then on, in whatever
    interleaving (other requests on the same or other conversations,
    resumptions of any body, reads, clears of other conversations), as long
    as this conversation is not cleared: the body stays in flight at its
    place, and once it has come to its end, the provider's outcome was
    delivered to it and reading the conversation returns a history that
    holds the user message immediately followed by the assistant message
    with the final text of this exchange. *)
Theorem X14_recorded_under_interleaving ops s i g conversation_id :
  bodies s !! i = Some g → pc g = PcStart →
  conversations (sys_state s) !! conversation_id = Some (history g) →
  Forall (λ op, op ≠ OpClear conversation_id) ops →
  ∃ g',
    bodies (run ops s) !! i = Some g'
    ∧ (pc g' = PcFinished →
       ∃ up : Upstream,
         upstream g = Delivers up
         ∧ recorded (user_message g) (final_text up)
             (messages (get_conversation conversation_id (sys_state (run ops s))))).
Proof.
  intros Hi Hpc Hl Hall.
  assert (Ht : tracked conversation_id i (history g) (user_message g) (pending_text g) s).
  { split; [done|]. exists g. repeat split; try done. left. split; [congruence | done]. }
  destruct (tracked_run _ _ _ _ _ ops s Hall Ht) as (Hl' & g' & Hi' & _ & _ & Hcase).
  exists g'. split; [done|]. intros Hfin.
  destruct (upstream g) as [up|] eqn:Hup.
  - exists up. split; [done|]. rewrite (messages_bound _ _ _ Hl').
    destruct Hcase as [[Hnf _]|[_ Hrec]]; [done|].
    unfold pending_text in Hrec. by rewrite Hpc, Hup in Hrec.
  - exfalso.
    assert (Hs : stuck i s) by (exists g; auto).
    destruct (stuck_run ops i s Hs) as (g'' & Hi'' & _ & [Hp|Hp]);
      rewrite Hi' in Hi''; injection Hi'' as <-; congruence.
Qed.

Lemma X14_recorded_under_interleaving_witness :
  bodies (apply_op (OpChat tokyo None (Streams ["Day 1"] Exhausted)) start) !! 0
  = Some {| history := 1; user_message := "Plan a 3-day Tokyo trip";
            upstream := Streams ["Day 1"] Exhausted; pc := PcStart |}
  ∧ conversations
      (sys_state (apply_op (OpChat tokyo None (Streams ["Day 1"] Exhausted)) start))
    !! "trip1" = Some 1%positive
  ∧ Forall (λ op, op ≠ OpClear "trip1")
      [OpChat tokyo None (StartChatRaises "quota"); OpResume 1; OpResume 0;
       OpClear "trip2"; OpResume 0; OpResume 1; OpResume 0]
  ∧ ∃ g',
      bodies
        (run [OpChat tokyo None (StartChatRaises "quota"); OpResume 1; OpResume 0;
              OpClear "trip2"; OpResume 0; OpResume 1; OpResume 0]
           (apply_op (OpChat tokyo None (Streams ["Day 1"] Exhausted)) start))
      !! 0 = Some g'
      ∧ (pc g' = PcFinished →
         ∃ up : Upstream,
           Delivers (Streams ["Day 1"] Exhausted) = Delivers up
           ∧ recorded "Plan a 3-day Tokyo trip" (final_text up)
               (messages
                  (get_conversation "trip1"
                     (sys_state
                        (run [OpChat tokyo None (StartChatRaises "quota"); OpResume 1;
                              OpResume 0; OpClear "trip2"; OpResume 0; OpResume 1;
                              OpResume 0]
                           (apply_op (OpChat tokyo None (Streams ["Day 1"] Exhausted))
                              start)))))).
Proof.
  assert (H1 : bodies (apply_op (OpChat tokyo None (Streams ["Day 1"] Exhausted)) start) !! 0
               = Some {| history := 1; user_message := "Plan a 3-day Tokyo trip";
                         upstream := Streams ["Day 1"] Exhausted; pc := PcStart |})
    by (vm_compute; reflexivity).
  assert (H2 : conversations
                 (sys_state (apply_op (OpChat tokyo None (Streams ["Day 1"] Exhausted)) start))
               !! "trip1" = Some 1%positive)
    by (vm_compute; reflexivity).
  assert (H3 : Forall (λ op, op ≠ OpClear "trip1")
                 [OpChat tokyo None (StartChatRaises "quota"); OpResume 1; OpResume 0;
                  OpClear "trip2"; OpResume 0; OpResume 1; OpResume 0])
    by (repeat (constructor; [discriminate|]); constructor).
  split; [exact H1|]. split; [exact H2|]. split; [exact H3|].
  exact (X14_recorded_under_interleaving _ _ 0 _ "trip1" H1 eq_refl H2 H3).
Defined.
